(** * The key space of the redis package (redisdb.go)

    A shallow embedding of [redisdb.go]: the [RedisDb] struct with its two
    Go maps, the [Item] interface, the registry method [Redis.RedisDb] and
    the expiry predicates, followed by the properties of the key space.

    Go objects reached through pointers ([*RedisDb], [*Redis]) live in a
    store indexed by addresses, so that "the same instance" means "the same
    address".  Every method is a computation over that store which either
    returns, blocks on the read/write mutex, or faults (a nil dereference,
    an unlock of an unlocked mutex). *)

From Stdlib Require Import ZArith Lia.
From stdpp Require Import base strings gmap list.

Local Open Scope Z_scope.

(** ** Data model *)

(** [type DatabaseId uint] *)
Definition DatabaseId := N.

(** [time.Time], as the instant it denotes (nanoseconds on the time line). *)
Definition Time := Z.

(** Addresses of heap objects; a Go pointer that may be nil is an
    [option loc]. *)
Definition loc := positive.

(** The [Item] interface.  A non-nil interface value is represented by what
    its getters return; [Value] is an opaque payload.  [OnDelete] is the one
    method with an effect: its body belongs to the concrete item type, so a
    call to it is recorded as an [Event] (see [OnDelete] below).  The nil
    interface value is [None : option Item]. *)
Record Item := mkItem {
  Value : string;
  ValueType : N;
  ValueTypeFancy : string;
  Expiry : Time;
  Expires : bool
}.

(** [type Keys map[string]Item] *)
Abbreviation Keys := (gmap string Item).

(** [sync.RWMutex]: a writer flag and the number of readers holding it. *)
Record RWMutex := mkRWMutex {
  writer : bool;
  readers : nat
}.

(** [type RedisDb struct]; [redis] is the address of the owning [Redis]. *)
Record RedisDb := mkRedisDb {
  id : DatabaseId;
  keys : Keys;
  expiringKeys : Keys;
  redis : loc
}.

(** [type RedisDbs map[DatabaseId]*RedisDb] *)
Abbreviation RedisDbs := (gmap DatabaseId loc).

(** Modelled from the spec: the [Redis] struct is declared outside
    [redisdb.go]; this file only uses its field [redisDbs] and the mutex
    that [Mu()] returns ("DatabaseRegistry: mapping from DatabaseId to
    Database, guarded by a single shared lock").  [redisDbs] is taken to be
    an allocated map: an assignment into a nil map would panic. *)
Record Redis := mkRedis {
  mu : RWMutex;
  redisDbs : RedisDbs
}.

(** A call of [i.OnDelete(key, db)], together with the [RedisDb] found at
    [db] at the moment of the call. *)
Inductive Event :=
| OnDeleteCall (i : Item) (key : string) (db : loc) (seen : RedisDb).

(** The store: the [Redis] and [RedisDb] objects, and the calls made so far
    into item code. *)
Record World := mkWorld {
  redises : gmap loc Redis;
  dbs : gmap loc RedisDb;
  events : list Event
}.

(** ** Computations *)

Inductive Outcome (A : Type) :=
| Ret (a : A) (w : World)
| Blocked
| Fault.
Arguments Ret {A} a w.
Arguments Blocked {A}.
Arguments Fault {A}.

Definition M (A : Type) := World -> Outcome A.

Definition ret {A} (a : A) : M A := fun w => Ret a w.

Definition bind {A B} (m : M A) (k : A -> M B) : M B :=
  fun w => match m w with
           | Ret a w' => k a w'
           | Blocked => Blocked
           | Fault => Fault
           end.

Declare Scope go_scope.
Delimit Scope go_scope with go.
Notation "'let!' x ':=' e 'in' k" := (bind e (fun x => k))
  (at level 10, x name, e at level 100, k at level 200, only parsing) : go_scope.
Notation "e1 '>>' e2" := (bind e1 (fun _ => e2))
  (at level 100, e2 at level 200, right associativity, only parsing) : go_scope.
Local Open Scope go_scope.

(** [defer f(); body]: [f] runs when [body] has returned. *)
Definition defer {A} (f : M unit) (body : M A) : M A :=
  let! a := body in f >> ret a.

(** Field updates. *)
Definition set_mu (m : RWMutex) (r : Redis) : Redis :=
  mkRedis m (redisDbs r).
Definition set_redisDbs (m : RedisDbs) (r : Redis) : Redis :=
  mkRedis (mu r) m.
Definition set_keys (m : Keys) (d : RedisDb) : RedisDb :=
  mkRedisDb (id d) m (expiringKeys d) (redis d).
Definition set_expiringKeys (m : Keys) (d : RedisDb) : RedisDb :=
  mkRedisDb (id d) (keys d) m (redis d).

(** Dereferencing and writing through pointers. *)
Definition load_redis (r : loc) : M Redis :=
  fun w => match redises w !! r with
           | Some o => Ret o w
           | None => Fault
           end.
Definition store_redis (r : loc) (o : Redis) : M unit :=
  fun w => Ret tt (mkWorld (<[r := o]> (redises w)) (dbs w) (events w)).
Definition load_db (db : loc) : M RedisDb :=
  fun w => match dbs w !! db with
           | Some d => Ret d w
           | None => Fault
           end.
Definition store_db (db : loc) (d : RedisDb) : M unit :=
  fun w => Ret tt (mkWorld (redises w) (<[db := d]> (dbs w)) (events w)).

(** [&RedisDb{...}]: a new object at an address not in use. *)
Definition alloc_db (d : RedisDb) : M loc :=
  fun w => let p := fresh (dom (dbs w)) in
           Ret p (mkWorld (redises w) (<[p := d]> (dbs w)) (events w)).

(** [i.OnDelete(key, db)] *)
Definition OnDelete (i : Item) (key : string) (db : loc) : M unit :=
  let! d := load_db db in
  fun w => Ret tt (mkWorld (redises w) (dbs w)
                     (events w ++ [OnDeleteCall i key db d])).

(** ** sync.RWMutex

    The mutex of a [Redis] is addressed by the address of that [Redis].
    Acquiring a mutex that is not available never returns ([Blocked]);
    releasing one that is not held is a fatal error ([Fault]). *)
Module RWMutex.

Definition unlocked : RWMutex := mkRWMutex false 0.

Definition RLock (m : loc) : M unit :=
  let! r := load_redis m in
  if writer (mu r) then (fun _ => Blocked)
  else store_redis m (set_mu (mkRWMutex false (S (readers (mu r)))) r).

Definition RUnlock (m : loc) : M unit :=
  let! r := load_redis m in
  match readers (mu r) with
  | O => fun _ => Fault
  | S n => store_redis m (set_mu (mkRWMutex (writer (mu r)) n) r)
  end.

Definition Lock (m : loc) : M unit :=
  let! r := load_redis m in
  if writer (mu r) then (fun _ => Blocked)
  else match readers (mu r) with
       | O => store_redis m (set_mu (mkRWMutex true 0) r)
       | S _ => fun _ => Blocked
       end.

Definition Unlock (m : loc) : M unit :=
  let! r := load_redis m in
  if writer (mu r) then store_redis m (set_mu (mkRWMutex false (readers (mu r))) r)
  else fun _ => Fault.

End RWMutex.

(** ** redisdb.go *)

(** [func NewRedisDb(id DatabaseId, r *Redis) *RedisDb] *)
Definition NewRedisDb (id : DatabaseId) (r : loc) : M loc :=
  alloc_db (mkRedisDb id ∅ ∅ r).

Module Redis.

(** Modelled from the spec: [func (r *Redis) Mu() *sync.RWMutex] is declared
    outside [redisdb.go]; it hands out the one lock of the registry. *)
Definition Mu (r : loc) : M loc := ret r.

(** [func (r *Redis) RedisDb(dbId DatabaseId) *RedisDb] *)
Definition RedisDb (r : loc) (dbId : DatabaseId) : M (option loc) :=
  let getDb : M (option loc) := (* returns nil if db not exists *)
    let! o := load_redis r in ret (redisDbs o !! dbId) in
  (let! m := Mu r in RWMutex.RLock m) >>
  let! db := getDb in
  (let! m := Mu r in RWMutex.RUnlock m) >>
  match db with
  | Some p => ret (Some p)
  | None =>
      (* create db *)
      (let! m := Mu r in RWMutex.Lock m) >>
      defer (let! m := Mu r in RWMutex.Unlock m)
        (let! db := getDb in
         match db with
         | Some p => ret (Some p)
         | None =>
             let! p := NewRedisDb dbId r in
             (let! o := load_redis r in
              store_redis r (set_redisDbs (<[dbId := p]> (redisDbs o)) o)) >>
             let! o := load_redis r in ret (redisDbs o !! dbId)
         end)
  end.

(** [func (r *Redis) RedisDbs() RedisDbs] *)
Definition RedisDbs (r : loc) : M (gmap DatabaseId loc) :=
  (let! m := Mu r in RWMutex.RLock m) >>
  defer (let! m := Mu r in RWMutex.RUnlock m)
    (let! o := load_redis r in ret (redisDbs o)).

End Redis.

(** [func Expired(expireAt time.Time) bool]; [now] is what [time.Now()]
    reads when the function runs. *)
Definition Expired (now : Time) (expireAt : Time) : bool :=
  now >? expireAt.

(** [func ItemExpired(i Item) bool] *)
Definition ItemExpired (now : Time) (i : Item) : bool :=
  Expires i && Expired now (Expiry i).

(** [c++] on an [int64]. *)
Definition int64_incr (c : Z) : Z :=
  (c + 1 + 2 ^ 63) mod 2 ^ 64 - 2 ^ 63.

Module RedisDb.

(** [func (db *RedisDb) Redis() *Redis] *)
Definition Redis (db : loc) : M loc :=
  let! d := load_db db in ret (redis d).

(** [func (db *RedisDb) Mu() *sync.RWMutex] *)
Definition Mu (db : loc) : M loc :=
  let! r := Redis db in Redis.Mu r.

(** [func (db *RedisDb) Id() DatabaseId] *)
Definition Id (db : loc) : M DatabaseId :=
  let! d := load_db db in ret (id d).

(** [func (db *RedisDb) IsEmpty() bool] *)
Definition IsEmpty (db : loc) : M bool :=
  (let! m := Mu db in RWMutex.RLock m) >>
  defer (let! m := Mu db in RWMutex.RUnlock m)
    (let! d := load_db db in ret (Nat.eqb (size (keys d)) 0)).

(** [func (db *RedisDb) IsEmptyExpire() bool] *)
Definition IsEmptyExpire (db : loc) : M bool :=
  (let! m := Mu db in RWMutex.RLock m) >>
  defer (let! m := Mu db in RWMutex.RUnlock m)
    (let! d := load_db db in ret (Nat.eqb (size (expiringKeys d)) 0)).

(** [func (db *RedisDb) Keys() Keys] *)
Definition Keys (db : loc) : M (gmap string Item) :=
  (let! m := Mu db in RWMutex.RLock m) >>
  defer (let! m := Mu db in RWMutex.RUnlock m)
    (let! d := load_db db in ret (keys d)).

(** [func (db *RedisDb) ExpiringKeys() Keys] *)
Definition ExpiringKeys (db : loc) : M (gmap string Item) :=
  (let! m := Mu db in RWMutex.RLock m) >>
  defer (let! m := Mu db in RWMutex.RUnlock m)
    (let! d := load_db db in ret (expiringKeys d)).

(** [func (db *RedisDb) Set(key *string, i Item)].  Here and below a
    [key *string] that the method dereferences unchecked is a [string], and
    [i] is a non-nil item ([i.Expires()] on a nil interface panics), so the
    two maps only ever hold non-nil items. *)
Definition Set_ (db : loc) (key : string) (i : Item) : M unit :=
  (let! m := Mu db in RWMutex.Lock m) >>
  defer (let! m := Mu db in RWMutex.Unlock m)
    ((let! d := load_db db in store_db db (set_keys (<[key := i]> (keys d)) d)) >>
     if Expires i then
       let! d := load_db db in
       store_db db (set_expiringKeys (<[key := i]> (expiringKeys d)) d)
     else ret tt).

(** [func (db *RedisDb) get(key *string) Item] *)
Definition get (db : loc) (key : string) : M (option Item) :=
  let! d := load_db db in ret (keys d !! key).

(** [func (db *RedisDb) Get(key *string) Item] *)
Definition Get (db : loc) (key : string) : M (option Item) :=
  (let! m := Mu db in RWMutex.RLock m) >>
  defer (let! m := Mu db in RWMutex.RUnlock m)
    (get db key).

(** [func (db *RedisDb) delete(key *string) bool] *)
Definition delete (db : loc) (key : string) : M bool :=
  let! i := get db key in
  match i with
  | None => ret false
  | Some i =>
      OnDelete i key db >>
      (let! d := load_db db in store_db db (set_keys (base.delete key (keys d)) d)) >>
      (let! d := load_db db in
       store_db db (set_expiringKeys (base.delete key (expiringKeys d)) d)) >>
      ret true
  end.

(** The loop of [Delete]: [for _, k := range keys], counting in [c]. *)
Fixpoint Delete_range (db : loc) (keys : list (option string)) (c : Z) : M Z :=
  match keys with
  | [] => ret c
  | k :: rest =>
      match k with
      | Some key =>
          let! b := delete db key in
          Delete_range db rest (if b then int64_incr c else c)
      | None => Delete_range db rest c
      end
  end.

(** [func (db *RedisDb) Delete(keys ...*string) int64] *)
Definition Delete (db : loc) (keys : list (option string)) : M Z :=
  (let! m := Mu db in RWMutex.Lock m) >>
  defer (let! m := Mu db in RWMutex.Unlock m)
    (Delete_range db keys 0).

(** [func (db *RedisDb) exists(key *string) bool] *)
Definition exists_ (db : loc) (key : string) : M bool :=
  let! d := load_db db in ret (bool_decide (is_Some (keys d !! key))).

(** [func (db *RedisDb) Exists(key *string) bool] *)
Definition Exists (db : loc) (key : string) : M bool :=
  (let! m := Mu db in RWMutex.RLock m) >>
  defer (let! m := Mu db in RWMutex.RUnlock m)
    (exists_ db key).

(** [func (db *RedisDb) Expires(key *string) bool] *)
Definition Expires (db : loc) (key : string) : M bool :=
  (let! m := Mu db in RWMutex.RLock m) >>
  defer (let! m := Mu db in RWMutex.RUnlock m)
    (let! d := load_db db in
     ret (bool_decide (is_Some (expiringKeys d !! key)))).

(** [func (db *RedisDb) GetOrExpired(key *string, deleteIfExpired bool) Item] *)
Definition GetOrExpired (now : Time) (db : loc) (key : string)
    (deleteIfExpired : bool) : M (option Item) :=
  (let! m := Mu db in RWMutex.Lock m) >>
  defer (let! m := Mu db in RWMutex.Unlock m)
    (let! d := load_db db in
     match keys d !! key with
     | None => ret None
     | Some i =>
         if ItemExpired now i then
           (if deleteIfExpired then delete db key >> ret tt else ret tt) >>
           ret None
         else ret (Some i)
     end).

End RedisDb.

(** ** Vocabulary of the statements

    Stores, the effect of each method read off as a function of the
    [RedisDb] it starts from, sequences of calls, and sample stores. *)

(** The receiver [db] holds [d], its registry holds [r], and nobody holds
    the mutex. *)
Definition ready (w : World) (db : loc) (d : RedisDb) (r : Redis) : Prop :=
  dbs w !! db = Some d /\ redises w !! redis d = Some r /\
  mu r = RWMutex.unlocked.

(** The store [w] with the object at [db] replaced by [d]. *)
Definition with_db (db : loc) (d : RedisDb) (w : World) : World :=
  mkWorld (redises w) (<[db := d]> (dbs w)) (events w).

(** The store [w] after [evs] more calls into item code. *)
Definition with_events (evs : list Event) (w : World) : World :=
  mkWorld (redises w) (dbs w) (events w ++ evs).

(** The store [w] while the mutex of [r] is held by [m]. *)
Definition holding (r : loc) (o : Redis) (m : RWMutex) (w : World) : World :=
  mkWorld (<[r := set_mu m o]> (redises w)) (dbs w) (events w).

(** What [Set] leaves at the receiver. *)
Definition after_Set (key : string) (i : Item) (d : RedisDb) : RedisDb :=
  mkRedisDb (id d) (<[key := i]> (keys d))
    (if Expires i then <[key := i]> (expiringKeys d) else expiringKeys d)
    (redis d).

(** What [delete] leaves at the receiver when the key is there. *)
Definition after_delete (key : string) (d : RedisDb) : RedisDb :=
  mkRedisDb (id d) (base.delete key (keys d))
    (base.delete key (expiringKeys d)) (redis d).

(** The loop of [Delete], read off as three functions of the [RedisDb] the
    loop starts from: what it leaves, which hooks it calls, and what it
    counts. *)
Fixpoint after_range (ks : list (option string)) (d : RedisDb) : RedisDb :=
  match ks with
  | [] => d
  | None :: rest => after_range rest d
  | Some key :: rest =>
      match keys d !! key with
      | Some _ => after_range rest (after_delete key d)
      | None => after_range rest d
      end
  end.

Fixpoint range_events (db : loc) (ks : list (option string)) (d : RedisDb)
  : list Event :=
  match ks with
  | [] => []
  | None :: rest => range_events db rest d
  | Some key :: rest =>
      match keys d !! key with
      | Some i =>
          OnDeleteCall i key db d :: range_events db rest (after_delete key d)
      | None => range_events db rest d
      end
  end.

Fixpoint range_count (ks : list (option string)) (d : RedisDb) (c : Z) : Z :=
  match ks with
  | [] => c
  | None :: rest => range_count rest d c
  | Some key :: rest =>
      match keys d !! key with
      | Some _ => range_count rest (after_delete key d) (int64_incr c)
      | None => range_count rest d c
      end
  end.

(** One call of a public method of a [RedisDb], with its arguments. *)
Inductive Op :=
| OpSet (key : string) (i : Item)
| OpGet (key : string)
| OpGetOrExpired (now : Time) (key : string) (deleteIfExpired : bool)
| OpDelete (ks : list (option string))
| OpExists (key : string)
| OpExpires (key : string)
| OpKeys
| OpExpiringKeys
| OpIsEmpty
| OpIsEmptyExpire.

(** The call, its result dropped. *)
Definition call (db : loc) (o : Op) : M unit :=
  match o with
  | OpSet key i => RedisDb.Set_ db key i
  | OpGet key => RedisDb.Get db key >> ret tt
  | OpGetOrExpired now key b => RedisDb.GetOrExpired now db key b >> ret tt
  | OpDelete ks => RedisDb.Delete db ks >> ret tt
  | OpExists key => RedisDb.Exists db key >> ret tt
  | OpExpires key => RedisDb.Expires db key >> ret tt
  | OpKeys => RedisDb.Keys db >> ret tt
  | OpExpiringKeys => RedisDb.ExpiringKeys db >> ret tt
  | OpIsEmpty => RedisDb.IsEmpty db >> ret tt
  | OpIsEmptyExpire => RedisDb.IsEmptyExpire db >> ret tt
  end.

Fixpoint calls (db : loc) (os : list Op) : M unit :=
  match os with
  | [] => ret tt
  | o :: rest => call db o >> calls db rest
  end.

(** What one call leaves at the receiver. *)
Definition after_call (o : Op) (d : RedisDb) : RedisDb :=
  match o with
  | OpSet key i => after_Set key i d
  | OpGetOrExpired now key true =>
      match keys d !! key with
      | Some i => if ItemExpired now i then after_delete key d else d
      | None => d
      end
  | OpDelete ks => after_range ks d
  | _ => d
  end.

Fixpoint after_calls (os : list Op) (d : RedisDb) : RedisDb :=
  match os with
  | [] => d
  | o :: rest => after_calls rest (after_call o d)
  end.

(** An item without expiry, and one whose expiry (instant 10) is long past
    at instant 100. *)
Definition plain_item : Item := mkItem "v" 1%N "string" 0 false.
Definition stale_item : Item := mkItem "old" 1%N "string" 10 true.

(** One registry at address 1, no databases, nobody holding the mutex. *)
Definition empty_registry : Redis := mkRedis RWMutex.unlocked ∅.
Definition world0 : World := mkWorld {[1%positive := empty_registry]} ∅ [].

(** The database at address 1 with "a" plain and "b" stale. *)
Definition db_ab : RedisDb :=
  mkRedisDb 0%N (<["b" := stale_item]> (<["a" := plain_item]> ∅))
    (<["b" := stale_item]> ∅) 1%positive.
Definition world_ab : World :=
  mkWorld {[1%positive := empty_registry]} {[1%positive := db_ab]} [].

(** A registry that already holds database 0 at address 1. *)
Definition world_reg : World :=
  mkWorld {[1%positive := mkRedis RWMutex.unlocked {[0%N := 1%positive]}]}
    {[1%positive := mkRedisDb 0%N ∅ ∅ 1%positive]} [].

Definition event_key (e : Event) : string :=
  match e with OnDeleteCall _ key _ _ => key end.

(** The hook calls made for [k] among [evs]. *)
Definition calls_for (k : string) (evs : list Event) : list Event :=
  filter (fun e => event_key e = k) evs.

(** The keys behind the non-nil references of an argument list. *)
Definition present_keys (ks : list (option string)) : list string :=
  omap (fun k => k) ks.

(** The same keys as a set: a key supplied twice is one key. *)
Definition supplied (ks : list (option string)) : gset string :=
  list_to_set (present_keys ks).

(** The number of supplied references, repetitions included, whose key is in
    the key map of [d]. *)
Definition existed_before (d : RedisDb) (ks : list (option string)) : nat :=
  length (filter (fun key => is_Some (keys d !! key)) (present_keys ks)).

(** The calls that remove [k] when it is there and, for [GetOrExpired],
    expired: a [Delete] that names [k], and [GetOrExpired(k, true)]. *)
Definition removes (k : string) (o : Op) : bool :=
  match o with
  | OpDelete ks => bool_decide (Some k ∈ ks)
  | OpGetOrExpired _ key true => bool_decide (key = k)
  | _ => false
  end.

(** The calls that store an item at [k]. *)
Definition writes (k : string) (o : Op) : bool :=
  match o with
  | OpSet key _ => bool_decide (key = k)
  | _ => false
  end.

(** The item at [k] after the calls [os], when [i] was there before: the
    one stored by the last [Set(k, _)], if any. *)
Fixpoint last_set (k : string) (os : list Op) (i : Item) : Item :=
  match os with
  | [] => i
  | OpSet key v :: rest => last_set k rest (if bool_decide (key = k) then v else i)
  | _ :: rest => last_set k rest i
  end.

Definition indexed_within (d : RedisDb) : Prop :=
  dom (expiringKeys d) ⊆ dom (keys d).

(** What [RedisDb(dbId)] leaves in the store when it has to create the
    database: the new object at a fresh address [p], and [p] in [redisDbs]. *)
Definition after_create (r : loc) (o : Redis) (dbId : DatabaseId) (p : loc)
    (w : World) : World :=
  mkWorld (<[r := set_redisDbs (<[dbId := p]> (redisDbs o)) o]> (redises w))
    (<[p := mkRedisDb dbId ∅ ∅ r]> (dbs w)) (events w).

(** What a call returned, if it returned. *)
Definition result {A} (o : Outcome A) : option A :=
  match o with
  | Ret a _ => Some a
  | _ => None
  end.

(** The hook calls one call makes. *)
Definition call_events (db : loc) (o : Op) (d : RedisDb) : list Event :=
  match o with
  | OpGetOrExpired now key true =>
      match keys d !! key with
      | Some i => if ItemExpired now i then [OnDeleteCall i key db d] else []
      | None => []
      end
  | OpDelete ks => range_events db ks d
  | _ => []
  end.

Fixpoint calls_events (db : loc) (os : list Op) (d : RedisDb) : list Event :=
  match os with
  | [] => []
  | o :: rest => call_events db o d ++ calls_events db rest (after_call o d)
  end.

(** Every item in the expiring-key index reports [Expires()]. *)
Definition index_sound (d : RedisDb) : Prop :=
  forall k i, expiringKeys d !! k = Some i -> Expires i = true.

(** Every item of the key map that reports [Expires()] is in the
    expiring-key index, under the same key. *)
Definition index_complete (d : RedisDb) : Prop :=
  forall k i, keys d !! k = Some i -> Expires i = true ->
              expiringKeys d !! k = Some i.

(** The registry at [r] is allocated, its mutex is free, and each database
    it lists is allocated, carries the id it is listed under and points back
    to [r]. *)
Definition registry_ok (w : World) (r : loc) : Prop :=
  exists o,
    redises w !! r = Some o /\ mu o = RWMutex.unlocked /\
    forall dbId p, redisDbs o !! dbId = Some p ->
      exists d, dbs w !! p = Some d /\ id d = dbId /\ redis d = r.


(** The database at address 1 whose only key is "k", holding the stale
    item. *)
Definition db_k : RedisDb :=
  mkRedisDb 0%N (<["k" := stale_item]> ∅) (<["k" := stale_item]> ∅) 1%positive.
Definition world_k : World :=
  mkWorld {[1%positive := empty_registry]} {[1%positive := db_k]} [].

(** ** Running the methods

    The lemmas of this part give, for each method, the outcome of one call
    from a store in which the receiver is allocated and its mutex is free. *)

Lemma set_mu_unlocked (o : Redis) :
  mu o = RWMutex.unlocked -> set_mu (mkRWMutex false 0) o = o.
Proof. destruct o as [m ds]; simpl; intros ->; reflexivity. Qed.

Lemma release_restores (r : loc) (o : Redis) (m : RWMutex) (R : gmap loc Redis) :
  R !! r = Some o -> mu o = RWMutex.unlocked ->
  <[r := set_mu (mkRWMutex false 0) (set_mu m o)]> (<[r := set_mu m o]> R) = R.
Proof.
  intros HR Hmu. rewrite insert_insert_eq.
  change (set_mu (mkRWMutex false 0) (set_mu m o)) with (set_mu (mkRWMutex false 0) o).
  rewrite set_mu_unlocked by assumption. apply insert_id, HR.
Qed.

(** A body run between [Lock] and the deferred [Unlock]. *)
Lemma run_Lock {A} (db : loc) (body : M A) w d r a w2 d2 :
  ready w db d r ->
  body (holding (redis d) r (mkRWMutex true 0) w) = Ret a w2 ->
  redises w2 = <[redis d := set_mu (mkRWMutex true 0) r]> (redises w) ->
  dbs w2 !! db = Some d2 -> redis d2 = redis d ->
  ((let! m := RedisDb.Mu db in RWMutex.Lock m) >>
   defer (let! m := RedisDb.Mu db in RWMutex.Unlock m) body) w
  = Ret a (mkWorld (redises w) (dbs w2) (events w2)).
Proof.
  intros (Hd & Hr & Hmu) Hbody HR Hd2 Hredis.
  unfold bind, defer, bind, RedisDb.Mu, bind, RedisDb.Redis, bind, Redis.Mu,
    RWMutex.Lock, RWMutex.Unlock, bind, load_db, load_redis, store_redis, ret.
  rewrite Hd, Hr, Hmu. simpl.
  unfold holding in Hbody. rewrite Hbody, Hd2, Hredis, HR.
  rewrite lookup_insert_eq. simpl. rewrite HR.
  rewrite release_restores by assumption. reflexivity.
Qed.

(** A body run between [RLock] and the deferred [RUnlock]. *)
Lemma run_RLock {A} (db : loc) (body : M A) w d r a w2 d2 :
  ready w db d r ->
  body (holding (redis d) r (mkRWMutex false 1) w) = Ret a w2 ->
  redises w2 = <[redis d := set_mu (mkRWMutex false 1) r]> (redises w) ->
  dbs w2 !! db = Some d2 -> redis d2 = redis d ->
  ((let! m := RedisDb.Mu db in RWMutex.RLock m) >>
   defer (let! m := RedisDb.Mu db in RWMutex.RUnlock m) body) w
  = Ret a (mkWorld (redises w) (dbs w2) (events w2)).
Proof.
  intros (Hd & Hr & Hmu) Hbody HR Hd2 Hredis.
  unfold bind, defer, bind, RedisDb.Mu, bind, RedisDb.Redis, bind, Redis.Mu,
    RWMutex.RLock, RWMutex.RUnlock, bind, load_db, load_redis, store_redis, ret.
  rewrite Hd, Hr, Hmu. simpl.
  unfold holding in Hbody. rewrite Hbody, Hd2, Hredis, HR.
  rewrite lookup_insert_eq. simpl. rewrite HR.
  rewrite release_restores by assumption. reflexivity.
Qed.

Lemma world_eta (w : World) : mkWorld (redises w) (dbs w) (events w) = w.
Proof. destruct w; reflexivity. Qed.

Lemma with_db_same (db : loc) (d : RedisDb) (w : World) :
  dbs w !! db = Some d -> with_db db d w = w.
Proof.
  intros H. unfold with_db. rewrite insert_id by exact H. apply world_eta.
Qed.

Lemma ready_with_db w db d r d' :
  ready w db d r -> redis d' = redis d -> ready (with_db db d' w) db d' r.
Proof.
  intros (Hd & Hr & Hmu) Hredis. unfold ready, with_db; simpl.
  rewrite lookup_insert_eq, Hredis. auto.
Qed.

Lemma ready_with_events w db d r evs :
  ready w db d r -> ready (with_events evs w) db d r.
Proof. intros H; exact H. Qed.

Lemma Set_run w db d r key i :
  ready w db d r ->
  RedisDb.Set_ db key i w = Ret tt (with_db db (after_Set key i d) w).
Proof.
  intros Hready. pose proof Hready as (Hd & Hr & Hmu).
  unfold RedisDb.Set_.
  erewrite (run_Lock db _ w d r tt
              (with_db db (after_Set key i d)
                 (holding (redis d) r (mkRWMutex true 0) w))
              (after_Set key i d) Hready).
  - reflexivity.
  - unfold bind, load_db, store_db, ret, holding, with_db, after_Set; simpl.
    rewrite Hd; simpl. destruct (Expires i); simpl.
    + rewrite lookup_insert_eq; simpl. rewrite insert_insert_eq. reflexivity.
    + reflexivity.
  - reflexivity.
  - simpl. apply lookup_insert_eq.
  - reflexivity.
Qed.

(** A read-only body under the read lock returns its value and leaves the
    store as it was. *)
Lemma run_reader {A} (db : loc) (body : M A) (f : RedisDb -> A) w d r :
  ready w db d r ->
  (forall w', dbs w' !! db = Some d -> body w' = Ret (f d) w') ->
  ((let! m := RedisDb.Mu db in RWMutex.RLock m) >>
   defer (let! m := RedisDb.Mu db in RWMutex.RUnlock m) body) w
  = Ret (f d) w.
Proof.
  intros Hready Hbody. pose proof Hready as (Hd & Hr & Hmu).
  erewrite (run_RLock db body w d r (f d)
              (holding (redis d) r (mkRWMutex false 1) w) d Hready).
  - simpl. rewrite world_eta. reflexivity.
  - apply Hbody. exact Hd.
  - reflexivity.
  - exact Hd.
  - reflexivity.
Qed.

Lemma get_run w db d key :
  dbs w !! db = Some d -> RedisDb.get db key w = Ret (keys d !! key) w.
Proof.
  intros Hd. unfold RedisDb.get, bind, load_db, ret. rewrite Hd. reflexivity.
Qed.

Lemma Get_run w db d r key :
  ready w db d r -> RedisDb.Get db key w = Ret (keys d !! key) w.
Proof.
  intros Hready. unfold RedisDb.Get.
  apply (run_reader db _ (fun d => keys d !! key) w d r Hready).
  intros w' Hd. apply get_run, Hd.
Qed.

Lemma Exists_run w db d r key :
  ready w db d r ->
  RedisDb.Exists db key w = Ret (bool_decide (is_Some (keys d !! key))) w.
Proof.
  intros Hready. unfold RedisDb.Exists.
  apply (run_reader db _ (fun d => bool_decide (is_Some (keys d !! key))) w d r Hready).
  intros w' Hd. unfold RedisDb.exists_, bind, load_db, ret. rewrite Hd. reflexivity.
Qed.

Lemma Expires_run w db d r key :
  ready w db d r ->
  RedisDb.Expires db key w
  = Ret (bool_decide (is_Some (expiringKeys d !! key))) w.
Proof.
  intros Hready. unfold RedisDb.Expires.
  apply (run_reader db _
           (fun d => bool_decide (is_Some (expiringKeys d !! key))) w d r Hready).
  intros w' Hd. unfold bind, load_db, ret. rewrite Hd. reflexivity.
Qed.

Lemma Keys_run w db d r :
  ready w db d r -> RedisDb.Keys db w = Ret (keys d) w.
Proof.
  intros Hready. unfold RedisDb.Keys.
  apply (run_reader db _ keys w d r Hready).
  intros w' Hd. unfold bind, load_db, ret. rewrite Hd. reflexivity.
Qed.

Lemma ExpiringKeys_run w db d r :
  ready w db d r -> RedisDb.ExpiringKeys db w = Ret (expiringKeys d) w.
Proof.
  intros Hready. unfold RedisDb.ExpiringKeys.
  apply (run_reader db _ expiringKeys w d r Hready).
  intros w' Hd. unfold bind, load_db, ret. rewrite Hd. reflexivity.
Qed.

Lemma IsEmpty_run w db d r :
  ready w db d r ->
  RedisDb.IsEmpty db w = Ret (Nat.eqb (size (keys d)) 0) w.
Proof.
  intros Hready. unfold RedisDb.IsEmpty.
  apply (run_reader db _ (fun d => Nat.eqb (size (keys d)) 0) w d r Hready).
  intros w' Hd. unfold bind, load_db, ret. rewrite Hd. reflexivity.
Qed.

Lemma IsEmptyExpire_run w db d r :
  ready w db d r ->
  RedisDb.IsEmptyExpire db w = Ret (Nat.eqb (size (expiringKeys d)) 0) w.
Proof.
  intros Hready. unfold RedisDb.IsEmptyExpire.
  apply (run_reader db _ (fun d => Nat.eqb (size (expiringKeys d)) 0) w d r Hready).
  intros w' Hd. unfold bind, load_db, ret. rewrite Hd. reflexivity.
Qed.

(** [delete] on any store that holds the receiver. *)
Lemma delete_run w db d key :
  dbs w !! db = Some d ->
  RedisDb.delete db key w =
  match keys d !! key with
  | None => Ret false w
  | Some i =>
      Ret true (with_events [OnDeleteCall i key db d]
                  (with_db db (after_delete key d) w))
  end.
Proof.
  intros Hd. unfold RedisDb.delete, bind at 1. rewrite (get_run w db d key Hd).
  destruct (keys d !! key) as [i|]; [|reflexivity].
  unfold OnDelete, bind, load_db, store_db, ret, with_events, with_db,
    after_delete; simpl.
  rewrite Hd; simpl. rewrite Hd; simpl.
  rewrite lookup_insert_eq; simpl. rewrite insert_insert_eq. reflexivity.
Qed.

Lemma with_events_with_db_step db d1 d2 e evs w :
  with_events evs (with_db db d2 (with_events [e] (with_db db d1 w)))
  = with_events (e :: evs) (with_db db d2 w).
Proof.
  unfold with_events, with_db; simpl.
  rewrite insert_insert_eq, <- app_assoc. reflexivity.
Qed.

Lemma Delete_range_run db ks : forall d c w,
  dbs w !! db = Some d ->
  RedisDb.Delete_range db ks c w
  = Ret (range_count ks d c)
      (with_events (range_events db ks d) (with_db db (after_range ks d) w)).
Proof.
  induction ks as [|[key|] rest IH]; intros d c w Hd; simpl.
  - unfold ret, with_events; simpl. rewrite app_nil_r.
    fold (with_db db d w). rewrite with_db_same by exact Hd. reflexivity.
  - unfold bind. rewrite (delete_run w db d key Hd).
    destruct (keys d !! key) as [i|].
    + rewrite (IH (after_delete key d)).
      * rewrite with_events_with_db_step. reflexivity.
      * simpl. apply lookup_insert_eq.
    + apply IH, Hd.
  - apply IH, Hd.
Qed.

Lemma redis_after_range ks : forall d, redis (after_range ks d) = redis d.
Proof.
  induction ks as [|[key|] rest IH]; intros d; simpl; auto.
  destruct (keys d !! key); rewrite IH; reflexivity.
Qed.

Lemma Delete_run w db d r ks :
  ready w db d r ->
  RedisDb.Delete db ks w
  = Ret (range_count ks d 0)
      (with_events (range_events db ks d) (with_db db (after_range ks d) w)).
Proof.
  intros Hready. pose proof Hready as (Hd & Hr & Hmu).
  unfold RedisDb.Delete.
  erewrite (run_Lock db _ w d r _
              (with_events (range_events db ks d)
                 (with_db db (after_range ks d)
                    (holding (redis d) r (mkRWMutex true 0) w)))
              (after_range ks d) Hready).
  - reflexivity.
  - apply Delete_range_run. exact Hd.
  - reflexivity.
  - simpl. apply lookup_insert_eq.
  - apply redis_after_range.
Qed.

Lemma GetOrExpired_run w db d r now key b :
  ready w db d r ->
  RedisDb.GetOrExpired now db key b w =
  match keys d !! key with
  | None => Ret None w
  | Some i =>
      if ItemExpired now i then
        if b then
          Ret None (with_events [OnDeleteCall i key db d]
                      (with_db db (after_delete key d) w))
        else Ret None w
      else Ret (Some i) w
  end.
Proof.
  intros Hready. pose proof Hready as (Hd & Hr & Hmu).
  unfold RedisDb.GetOrExpired.
  destruct (keys d !! key) as [i|] eqn:Hk;
    [destruct (ItemExpired now i) eqn:Hx; [destruct b|]|].
  - erewrite (run_Lock db _ w d r None
                (with_events [OnDeleteCall i key db d]
                   (with_db db (after_delete key d)
                      (holding (redis d) r (mkRWMutex true 0) w)))
                (after_delete key d) Hready).
    + reflexivity.
    + unfold bind at 1. unfold load_db at 1. simpl. rewrite Hd, Hk, Hx.
      unfold bind. rewrite (delete_run _ db d key) by exact Hd. rewrite Hk.
      reflexivity.
    + reflexivity.
    + simpl. apply lookup_insert_eq.
    + reflexivity.
  - erewrite (run_Lock db _ w d r None
                (holding (redis d) r (mkRWMutex true 0) w) d Hready).
    + simpl. rewrite world_eta. reflexivity.
    + unfold bind at 1. unfold load_db at 1. simpl. rewrite Hd, Hk, Hx.
      reflexivity.
    + reflexivity.
    + exact Hd.
    + reflexivity.
  - erewrite (run_Lock db _ w d r (Some i)
                (holding (redis d) r (mkRWMutex true 0) w) d Hready).
    + simpl. rewrite world_eta. reflexivity.
    + unfold bind at 1. unfold load_db at 1. simpl. rewrite Hd, Hk, Hx.
      reflexivity.
    + reflexivity.
    + exact Hd.
    + reflexivity.
  - erewrite (run_Lock db _ w d r None
                (holding (redis d) r (mkRWMutex true 0) w) d Hready).
    + simpl. rewrite world_eta. reflexivity.
    + unfold bind at 1. unfold load_db at 1. simpl. rewrite Hd, Hk.
      reflexivity.
    + reflexivity.
    + exact Hd.
    + reflexivity.
Qed.

(** ** Sequences of calls *)

Lemma ready_step w db d r d' evs :
  ready w db d r -> redis d' = redis d ->
  ready (with_events evs (with_db db d' w)) db d' r.
Proof.
  intros H Hr. apply ready_with_events. apply (ready_with_db w db d r d' H Hr).
Qed.

Lemma call_run w db d r o :
  ready w db d r ->
  exists w1, call db o w = Ret tt w1 /\ ready w1 db (after_call o d) r.
Proof.
  intros Hready. destruct o as [key i|key|now key b|ks|key|key| | | | ];
    unfold call, bind; simpl.
  - rewrite (Set_run w db d r key i Hready). eexists; split; [reflexivity|].
    apply (ready_with_db w db d r _ Hready). reflexivity.
  - rewrite (Get_run w db d r key Hready). eauto.
  - rewrite (GetOrExpired_run w db d r now key b Hready).
    destruct (keys d !! key) as [i|]; [|destruct b; eauto].
    destruct (ItemExpired now i); [|destruct b; eauto].
    destruct b; [|eauto].
    eexists; split; [reflexivity|].
    apply (ready_step w db d r _ _ Hready). reflexivity.
  - rewrite (Delete_run w db d r ks Hready). eexists; split; [reflexivity|].
    apply (ready_step w db d r _ _ Hready), redis_after_range.
  - rewrite (Exists_run w db d r key Hready). eauto.
  - rewrite (Expires_run w db d r key Hready). eauto.
  - rewrite (Keys_run w db d r Hready). eauto.
  - rewrite (ExpiringKeys_run w db d r Hready). eauto.
  - rewrite (IsEmpty_run w db d r Hready). eauto.
  - rewrite (IsEmptyExpire_run w db d r Hready). eauto.
Qed.

Lemma calls_run db r os : forall w d,
  ready w db d r ->
  exists w1, calls db os w = Ret tt w1 /\ ready w1 db (after_calls os d) r.
Proof.
  induction os as [|o rest IH]; intros w d Hready; simpl.
  - exists w. split; [reflexivity|assumption].
  - destruct (call_run w db d r o Hready) as (w1 & Hcall & Hready1).
    unfold bind. rewrite Hcall. apply IH. assumption.
Qed.

(** A fresh database is ready as soon as its registry is. *)
Lemma NewRedisDb_run w id r o :
  redises w !! r = Some o -> mu o = RWMutex.unlocked ->
  exists db w0,
    NewRedisDb id r w = Ret db w0 /\ dbs w !! db = None /\
    w0 = with_db db (mkRedisDb id ∅ ∅ r) w /\
    ready w0 db (mkRedisDb id ∅ ∅ r) o.
Proof.
  intros Hr Hmu. exists (fresh (dom (dbs w))), (with_db (fresh (dom (dbs w))) (mkRedisDb id ∅ ∅ r) w).
  split; [reflexivity|]. split.
  - apply not_elem_of_dom. apply is_fresh.
  - split; [reflexivity|]. unfold ready, with_db; simpl.
    rewrite lookup_insert_eq. auto.
Qed.

(** ** Sample stores *)

Lemma ready_world_ab : ready world_ab 1%positive db_ab empty_registry.
Proof. repeat split. Defined.

(** [world_ab] is what [NewRedisDb] and two calls of [Set] build from
    [world0]. *)
Lemma world_ab_built :
  exists db w0,
    NewRedisDb 0%N 1%positive world0 = Ret db w0 /\
    calls db [OpSet "a" plain_item; OpSet "b" stale_item] w0 = Ret tt world_ab.
Proof. eexists _, _. split; vm_compute; reflexivity. Qed.

(** ** Properties of [Set], [Get], [Exists] and [Expires] *)

(** What [Expires(key)] answers right after [Set(key, i)]: true when the
    item expires, and otherwise whatever it answered before the call. *)
Lemma Expires_after_Set w db d r key i :
  ready w db d r ->
  exists w1,
    RedisDb.Set_ db key i w = Ret tt w1 /\
    RedisDb.Expires db key w1
    = Ret (Expires i || bool_decide (is_Some (expiringKeys d !! key))) w1.
Proof.
  intros Hready. eexists. split; [apply (Set_run w db d r key i Hready)|].
  erewrite Expires_run
    by (apply (ready_with_db w db d r (after_Set key i d) Hready); reflexivity).
  f_equal. unfold after_Set; simpl. destruct (Expires i); simpl.
  - rewrite lookup_insert_eq. reflexivity.
  - reflexivity.
Qed.

(** C1 (evaluated on the code): on a fresh database, [Set("k", stale_item)]
    followed by [Set("k", plain_item)] leaves "k" in the expiring-key index:
    [Expires("k")] answers true although the item now stored at "k" reports
    [Expires() = false], and [ExpiringKeys()] still holds the overwritten
    item. *)
Theorem Set_keeps_stale_expiry_entry :
  exists db w0 w1 w2,
    NewRedisDb 0%N 1%positive world0 = Ret db w0 /\
    RedisDb.Set_ db "k" stale_item w0 = Ret tt w1 /\
    RedisDb.Set_ db "k" plain_item w1 = Ret tt w2 /\
    Expires plain_item = false /\
    RedisDb.Get db "k" w2 = Ret (Some plain_item) w2 /\
    RedisDb.Expires db "k" w2 = Ret true w2 /\
    RedisDb.ExpiringKeys db w2 = Ret {["k" := stale_item]} w2.
Proof.
  eexists _, _, _, _. vm_compute. repeat split; reflexivity.
Qed.

(** C6: right after [Set(k, v)], [Get(k)] returns [v] and [Exists(k)] is
    true, whatever the database held before and whatever [v]'s expiry
    fields are; none of the three calls blocks or faults. *)
Theorem Set_then_Get_Exists w db d r (k : string) (v : Item) :
  ready w db d r ->
  exists w1,
    RedisDb.Set_ db k v w = Ret tt w1 /\
    RedisDb.Get db k w1 = Ret (Some v) w1 /\
    RedisDb.Exists db k w1 = Ret true w1.
Proof.
  intros Hready. exists (with_db db (after_Set k v d) w).
  assert (Hready1 : ready (with_db db (after_Set k v d) w) db (after_Set k v d) r)
    by (apply (ready_with_db w db d r _ Hready); reflexivity).
  split; [apply (Set_run w db d r k v Hready)|]. split.
  - rewrite (Get_run _ db _ r k Hready1). simpl.
    rewrite lookup_insert_eq. reflexivity.
  - rewrite (Exists_run _ db _ r k Hready1). simpl.
    rewrite lookup_insert_eq. reflexivity.
Qed.

Lemma Set_then_Get_Exists_witness :
  exists w1,
    RedisDb.Set_ 1%positive "b" plain_item world_ab = Ret tt w1 /\
    RedisDb.Get 1%positive "b" w1 = Ret (Some plain_item) w1 /\
    RedisDb.Exists 1%positive "b" w1 = Ret true w1.
Proof.
  apply (Set_then_Get_Exists world_ab 1%positive db_ab empty_registry).
  repeat split.
Defined.

(** ** The expiry predicates *)

Lemma Expired_true_iff (now t : Time) : Expired now t = true <-> t < now.
Proof.
  unfold Expired. rewrite Z.gtb_ltb. apply Z.ltb_lt.
Qed.

Lemma ItemExpired_true_iff (now : Time) (i : Item) :
  ItemExpired now i = true <-> Expires i = true /\ Expiry i < now.
Proof.
  unfold ItemExpired. rewrite andb_true_iff, Expired_true_iff. reflexivity.
Qed.

(** C7: [Expired] is true exactly when the timestamp is strictly before the
    clock reading (a timestamp equal to it is not expired), and
    [ItemExpired] is true exactly when the item expires and its expiry is
    strictly before the clock reading. *)
Theorem Expired_iff_strictly_before (now t : Time) (i : Item) :
  (Expired now t = true <-> t < now) /\
  Expired now now = false /\
  (ItemExpired now i = true <-> Expires i = true /\ Expiry i < now).
Proof.
  split; [apply Expired_true_iff|]. split; [|apply ItemExpired_true_iff].
  unfold Expired. rewrite Z.gtb_ltb. apply Z.ltb_irrefl.
Qed.

(** ** The expiry-aware read *)

(** C3: for a key whose item expires with an expiry before the clock
    reading, [GetOrExpired(k, true)] returns nil and afterwards [Exists(k)]
    is false, while [GetOrExpired(k, false)] returns nil and afterwards
    [Exists(k)] is still true; for a key whose item has no expiry or a later
    expiry, [GetOrExpired(k, b)] returns that item for either [b] and
    changes nothing; for an absent key it returns nil. *)
Theorem GetOrExpired_by_cases w db d r (now : Time) (k : string) :
  ready w db d r ->
  (forall i, keys d !! k = Some i -> Expires i = true -> Expiry i < now ->
     (exists w1, RedisDb.GetOrExpired now db k true w = Ret None w1 /\
                 RedisDb.Exists db k w1 = Ret false w1) /\
     (exists w1, RedisDb.GetOrExpired now db k false w = Ret None w1 /\
                 RedisDb.Exists db k w1 = Ret true w1)) /\
  (forall i b, keys d !! k = Some i -> Expires i = false \/ now < Expiry i ->
     RedisDb.GetOrExpired now db k b w = Ret (Some i) w) /\
  (forall b, keys d !! k = None ->
     RedisDb.GetOrExpired now db k b w = Ret None w).
Proof.
  intros Hready. repeat split.
  - assert (Hx : ItemExpired now i = true)
      by (apply ItemExpired_true_iff; auto).
    eexists. rewrite (GetOrExpired_run w db d r now k true Hready), H, Hx.
    split; [reflexivity|].
    erewrite Exists_run
      by (apply (ready_step w db d r (after_delete k d) _ Hready); reflexivity).
    simpl. rewrite lookup_delete_eq. reflexivity.
  - assert (Hx : ItemExpired now i = true)
      by (apply ItemExpired_true_iff; auto).
    exists w. rewrite (GetOrExpired_run w db d r now k false Hready), H, Hx.
    split; [reflexivity|].
    rewrite (Exists_run w db d r k Hready), H. reflexivity.
  - intros i b Hk Hlive.
    assert (Hx : ItemExpired now i = false).
    { destruct (ItemExpired now i) eqn:E; [|reflexivity].
      apply ItemExpired_true_iff in E.
      destruct E as [E1 E2]. destruct Hlive as [Hl|Hl]; [congruence|lia]. }
    rewrite (GetOrExpired_run w db d r now k b Hready), Hk, Hx. reflexivity.
  - intros b Hk.
    rewrite (GetOrExpired_run w db d r now k b Hready), Hk. reflexivity.
Qed.

Lemma GetOrExpired_by_cases_witness :
  (exists w1, RedisDb.GetOrExpired 100 1%positive "b" true world_ab = Ret None w1 /\
              RedisDb.Exists 1%positive "b" w1 = Ret false w1) /\
  (exists w1, RedisDb.GetOrExpired 100 1%positive "b" false world_ab = Ret None w1 /\
              RedisDb.Exists 1%positive "b" w1 = Ret true w1) /\
  RedisDb.GetOrExpired 100 1%positive "a" true world_ab
  = Ret (Some plain_item) world_ab /\
  RedisDb.GetOrExpired 100 1%positive "c" false world_ab = Ret None world_ab.
Proof.
  pose proof (GetOrExpired_by_cases world_ab 1%positive db_ab empty_registry
                100 "b" ready_world_ab) as (Hb & _ & _).
  pose proof (GetOrExpired_by_cases world_ab 1%positive db_ab empty_registry
                100 "a" ready_world_ab) as (_ & Ha & _).
  pose proof (GetOrExpired_by_cases world_ab 1%positive db_ab empty_registry
                100 "c" ready_world_ab) as (_ & _ & Hc).
  destruct (Hb stale_item) as [Hb1 Hb2];
    [reflexivity|reflexivity|reflexivity|].
  split; [exact Hb1|]. split; [exact Hb2|]. split.
  - apply Ha; [reflexivity|left; reflexivity].
  - apply Hc. reflexivity.
Defined.

(** C10: [GetOrExpired(k, false)] returns and leaves the store exactly as it
    was (key map, expiring-key index, and no hook called), whatever the
    state of [k]; and for either flag the only change [GetOrExpired] can
    make is the removal of [k] from both maps, which happens only when
    [deleteIfExpired] is true and the item at [k] is expired. *)
Theorem GetOrExpired_frame w db d r (now : Time) (k : string) :
  ready w db d r ->
  (exists x, RedisDb.GetOrExpired now db k false w = Ret x w) /\
  (forall b, exists x w1,
     RedisDb.GetOrExpired now db k b w = Ret x w1 /\
     (w1 = w \/
      b = true /\
      exists i d1,
        keys d !! k = Some i /\ Expires i = true /\ Expiry i < now /\
        redises w1 = redises w /\
        dbs w1 = <[db := d1]> (dbs w) /\
        keys d1 = base.delete k (keys d) /\
        expiringKeys d1 = base.delete k (expiringKeys d) /\
        id d1 = id d /\ redis d1 = redis d)).
Proof.
  intros Hready. split.
  - rewrite (GetOrExpired_run w db d r now k false Hready).
    destruct (keys d !! k) as [i|]; [destruct (ItemExpired now i)|]; eauto.
  - intros b. rewrite (GetOrExpired_run w db d r now k b Hready).
    destruct (keys d !! k) as [i|] eqn:Hk; [|eauto].
    destruct (ItemExpired now i) eqn:Hx; [|eauto].
    destruct b; [|eauto].
    apply ItemExpired_true_iff in Hx. destruct Hx as [Hx1 Hx2].
    eexists _, _. split; [reflexivity|]. right. split; [reflexivity|].
    exists i, (after_delete k d). repeat split; assumption.
Qed.

Lemma GetOrExpired_frame_witness :
  (exists x, RedisDb.GetOrExpired 100 1%positive "b" false world_ab
             = Ret x world_ab) /\
  (exists x w1,
     RedisDb.GetOrExpired 100 1%positive "b" true world_ab = Ret x w1 /\
     keys <$> (dbs w1 !! 1%positive) = Some (base.delete "b" (keys db_ab))).
Proof.
  destruct (GetOrExpired_frame world_ab 1%positive db_ab empty_registry 100 "b"
              ready_world_ab) as [H1 H2].
  split; [exact H1|].
  destruct (H2 true) as (x & w1 & Hrun & Hcases).
  exists x, w1. split; [exact Hrun|].
  destruct Hcases as [->|(_ & i & d1 & _ & _ & _ & _ & Hdbs & Hkeys & _)].
  - exfalso. vm_compute in Hrun. discriminate Hrun.
  - rewrite Hdbs, lookup_insert_eq. simpl. rewrite Hkeys. reflexivity.
Defined.

(** ** Removal and the deletion hook *)

(** The loop of [Delete] never brings a key back. *)
Lemma after_range_keys_None ks k : forall d,
  keys d !! k = None -> keys (after_range ks d) !! k = None.
Proof.
  induction ks as [|[key|] rest IH]; intros d Hk; simpl; auto.
  destruct (keys d !! key); auto.
  apply IH. simpl. apply lookup_delete_None. auto.
Qed.

Lemma after_range_expiringKeys_None ks k : forall d,
  expiringKeys d !! k = None -> expiringKeys (after_range ks d) !! k = None.
Proof.
  induction ks as [|[key|] rest IH]; intros d Hk; simpl; auto.
  destruct (keys d !! key); auto.
  apply IH. simpl. apply lookup_delete_None. auto.
Qed.

(** A key that is not there gets no hook call. *)
Lemma range_events_absent db ks k : forall d,
  keys d !! k = None -> calls_for k (range_events db ks d) = [].
Proof.
  induction ks as [|[key|] rest IH]; intros d Hk; simpl; auto.
  destruct (keys d !! key) as [j|] eqn:Hkey; auto.
  unfold calls_for. rewrite filter_cons_False.
  - apply IH. simpl. apply lookup_delete_None. auto.
  - simpl. intros ->. congruence.
Qed.

(** A key that is there and is supplied gets exactly one hook call, made
    while the key is still in both maps as it was; the loop then leaves it
    in neither map. *)
Lemma range_events_present db ks k i : forall d,
  keys d !! k = Some i -> Some k ∈ ks ->
  exists seen,
    calls_for k (range_events db ks d) = [OnDeleteCall i k db seen] /\
    keys seen !! k = Some i /\
    expiringKeys seen !! k = expiringKeys d !! k /\
    keys (after_range ks d) !! k = None /\
    expiringKeys (after_range ks d) !! k = None.
Proof.
  induction ks as [|[key|] rest IH]; intros d Hk Hin.
  - inversion Hin.
  - apply elem_of_cons in Hin. simpl.
    destruct (decide (key = k)) as [->|Hne].
    + rewrite Hk. exists d. unfold calls_for.
      rewrite filter_cons_True by reflexivity.
      fold (calls_for k (range_events db rest (after_delete k d))).
      rewrite range_events_absent by (simpl; apply lookup_delete_eq).
      repeat split; auto.
      * apply after_range_keys_None. simpl. apply lookup_delete_eq.
      * apply after_range_expiringKeys_None. simpl. apply lookup_delete_eq.
    + destruct Hin as [Heq|Hin]; [congruence|].
      destruct (keys d !! key) as [j|] eqn:Hkey.
      * destruct (IH (after_delete key d)) as (seen & H1 & H2 & H3 & H4 & H5).
        { simpl. rewrite lookup_delete_ne by assumption. exact Hk. }
        { exact Hin. }
        exists seen. unfold calls_for. rewrite filter_cons_False by (simpl; assumption).
        repeat split; auto.
        rewrite H3. simpl. apply lookup_delete_ne. assumption.
      * apply IH; assumption.
  - apply elem_of_cons in Hin. destruct Hin as [Heq|Hin]; [discriminate|].
    simpl. apply IH; assumption.
Qed.

(** C5: a removal of an existing key [k] calls the [OnDelete] hook of the
    item stored at [k] exactly once, with [k] and the receiver, while [k] is
    still in the key map and the expiring-key index is as before; this holds
    for [Delete(k)], which returns 1, for [GetOrExpired(k, true)] on an
    expired item, and for [Delete] of any list that names [k]; afterwards
    [Exists(k)] and [Expires(k)] are both false. *)
Theorem removal_calls_OnDelete_once w db d r (k : string) (i : Item) :
  ready w db d r -> keys d !! k = Some i ->
  (exists w1,
     RedisDb.Delete db [Some k] w = Ret 1 w1 /\
     events w1 = events w ++ [OnDeleteCall i k db d] /\
     RedisDb.Exists db k w1 = Ret false w1 /\
     RedisDb.Expires db k w1 = Ret false w1) /\
  (forall now, Expires i = true -> Expiry i < now ->
   exists w1,
     RedisDb.GetOrExpired now db k true w = Ret None w1 /\
     events w1 = events w ++ [OnDeleteCall i k db d] /\
     RedisDb.Exists db k w1 = Ret false w1 /\
     RedisDb.Expires db k w1 = Ret false w1) /\
  (forall ks, Some k ∈ ks ->
   exists c w1 evs seen,
     RedisDb.Delete db ks w = Ret c w1 /\
     events w1 = events w ++ evs /\
     calls_for k evs = [OnDeleteCall i k db seen] /\
     keys seen !! k = Some i /\
     expiringKeys seen !! k = expiringKeys d !! k /\
     RedisDb.Exists db k w1 = Ret false w1 /\
     RedisDb.Expires db k w1 = Ret false w1).
Proof.
  intros Hready Hk.
  assert (Hgone : forall evs,
            RedisDb.Exists db k (with_events evs (with_db db (after_delete k d) w))
            = Ret false (with_events evs (with_db db (after_delete k d) w)) /\
            RedisDb.Expires db k (with_events evs (with_db db (after_delete k d) w))
            = Ret false (with_events evs (with_db db (after_delete k d) w))).
  { intros evs.
    assert (Hready1 := ready_step w db d r (after_delete k d) evs Hready eq_refl).
    rewrite (Exists_run _ db _ r k Hready1), (Expires_run _ db _ r k Hready1).
    simpl. rewrite !lookup_delete_eq. split; reflexivity. }
  split; [|split].
  - eexists. rewrite (Delete_run w db d r [Some k] Hready). simpl. rewrite Hk.
    split; [reflexivity|]. split; [reflexivity|]. apply Hgone.
  - intros now He Hpast.
    assert (Hx : ItemExpired now i = true)
      by (apply ItemExpired_true_iff; auto).
    eexists. rewrite (GetOrExpired_run w db d r now k true Hready), Hk, Hx.
    split; [reflexivity|]. split; [reflexivity|]. apply Hgone.
  - intros ks Hin.
    destruct (range_events_present db ks k i d Hk Hin)
      as (seen & H1 & H2 & H3 & H4 & H5).
    eexists _, _, (range_events db ks d), seen.
    rewrite (Delete_run w db d r ks Hready).
    split; [reflexivity|]. split; [reflexivity|].
    split; [exact H1|]. split; [exact H2|]. split; [exact H3|].
    assert (Hready1 := ready_step w db d r (after_range ks d)
                         (range_events db ks d) Hready (redis_after_range ks d)).
    rewrite (Exists_run _ db _ r k Hready1), (Expires_run _ db _ r k Hready1).
    rewrite H4, H5. split; reflexivity.
Qed.

Lemma removal_calls_OnDelete_once_witness :
  (exists w1,
     RedisDb.Delete 1%positive [Some "b"] world_ab = Ret 1 w1 /\
     events w1 = [OnDeleteCall stale_item "b" 1%positive db_ab] /\
     RedisDb.Exists 1%positive "b" w1 = Ret false w1 /\
     RedisDb.Expires 1%positive "b" w1 = Ret false w1) /\
  (exists w1,
     RedisDb.GetOrExpired 100 1%positive "b" true world_ab = Ret None w1 /\
     events w1 = [OnDeleteCall stale_item "b" 1%positive db_ab] /\
     RedisDb.Exists 1%positive "b" w1 = Ret false w1 /\
     RedisDb.Expires 1%positive "b" w1 = Ret false w1) /\
  (exists c w1 evs seen,
     RedisDb.Delete 1%positive [Some "a"; None; Some "b"; Some "b"] world_ab
     = Ret c w1 /\
     events w1 = events world_ab ++ evs /\
     calls_for "b" evs = [OnDeleteCall stale_item "b" 1%positive seen] /\
     keys seen !! "b" = Some stale_item /\
     expiringKeys seen !! "b" = expiringKeys db_ab !! "b" /\
     RedisDb.Exists 1%positive "b" w1 = Ret false w1 /\
     RedisDb.Expires 1%positive "b" w1 = Ret false w1).
Proof.
  destruct (removal_calls_OnDelete_once world_ab 1%positive db_ab empty_registry
              "b" stale_item ready_world_ab eq_refl) as (H1 & H2 & H3).
  split; [exact H1|]. split.
  - apply (H2 100); reflexivity.
  - apply (H3 [Some "a"; None; Some "b"; Some "b"]).
    apply elem_of_cons. right. apply elem_of_cons. right.
    apply elem_of_cons. left. reflexivity.
Defined.

(** ** What [Delete] counts *)

Lemma int64_incr_small (c : Z) : 0 <= c < 2 ^ 63 - 1 -> int64_incr c = c + 1.
Proof.
  intros H. unfold int64_incr.
  rewrite Z.mod_small by lia. lia.
Qed.

Lemma supplied_nil : supplied [] = ∅.
Proof. reflexivity. Qed.

Lemma supplied_Some key rest : supplied (Some key :: rest) = {[key]} ∪ supplied rest.
Proof. reflexivity. Qed.

Lemma supplied_None rest : supplied (None :: rest) = supplied rest.
Proof. reflexivity. Qed.

Lemma range_count_distinct ks : forall d c,
  0 <= c -> c + Z.of_nat (length ks) < 2 ^ 63 ->
  range_count ks d c = c + Z.of_nat (size (supplied ks ∩ dom (keys d))).
Proof.
  induction ks as [|[key|] rest IH]; intros d c Hc Hlen;
    cbn [range_count]; cbn [length] in Hlen.
  - rewrite supplied_nil.
    replace ((∅ : gset string) ∩ dom (keys d)) with (∅ : gset string) by set_solver.
    rewrite size_empty. lia.
  - rewrite supplied_Some.
    destruct (keys d !! key) as [i|] eqn:Hkey.
    + rewrite IH by (try rewrite int64_incr_small; lia).
      rewrite int64_incr_small by lia. cbn [after_delete keys].
      rewrite dom_delete_L.
      assert (Hin : key ∈ dom (keys d)) by (apply elem_of_dom; eauto).
      replace (({[key]} ∪ supplied rest) ∩ dom (keys d))
        with ({[key]} ∪ supplied rest ∩ (dom (keys d) ∖ {[key]})).
      2:{ apply set_eq. intros x. destruct (decide (x = key)); set_solver. }
      assert (Hdisj : ({[key]} : gset string)
                      ## supplied rest ∩ (dom (keys d) ∖ {[key]}))
        by set_solver.
      rewrite (size_union _ _ Hdisj), size_singleton. lia.
    + rewrite IH by lia.
      assert (Hout : key ∉ dom (keys d)) by (apply not_elem_of_dom; exact Hkey).
      replace (({[key]} ∪ supplied rest) ∩ dom (keys d))
        with (supplied rest ∩ dom (keys d)) by set_solver.
      reflexivity.
  - rewrite supplied_None. apply IH; lia.
Qed.

Lemma size_existing_NoDup (m : gmap string Item) (l : list string) :
  NoDup l ->
  size ((list_to_set l : gset string) ∩ dom m)
  = length (filter (fun key => is_Some (m !! key)) l).
Proof.
  induction 1 as [|x l Hx Hnd IH].
  - replace ((list_to_set [] : gset string) ∩ dom m) with (∅ : gset string)
      by set_solver.
    apply size_empty.
  - assert (Hx' : x ∉ (list_to_set l : gset string))
      by (rewrite elem_of_list_to_set; exact Hx).
    rewrite list_to_set_cons.
    destruct (m !! x) as [i|] eqn:Hm.
    + rewrite filter_cons_True by (rewrite Hm; eauto).
      cbn [length]. rewrite <- IH.
      assert (Hin : x ∈ dom m) by (apply elem_of_dom; eauto).
      replace (({[x]} ∪ list_to_set l) ∩ dom m)
        with ({[x]} ∪ (list_to_set l : gset string) ∩ dom m) by set_solver.
      assert (Hdisj : ({[x]} : gset string) ## list_to_set l ∩ dom m)
        by set_solver.
      rewrite (size_union _ _ Hdisj), size_singleton. reflexivity.
    + rewrite filter_cons_False by (rewrite Hm; intros [? ?]; discriminate).
      rewrite <- IH.
      assert (Hout : x ∉ dom m) by (apply not_elem_of_dom; exact Hm).
      replace (({[x]} ∪ list_to_set l) ∩ dom m)
        with ((list_to_set l : gset string) ∩ dom m) by set_solver.
      reflexivity.
Qed.

(** C4 (as amended): for every argument list, nil references and missing
    keys included, [Delete] returns, without blocking or faulting, the
    number of distinct supplied keys that were in the key map just before
    the call; when no key is supplied twice this is the number of supplied
    references whose key was in the key map.  The list is as long as a Go
    slice can be. *)
Theorem Delete_counts_distinct_existing w db d r (ks : list (option string)) :
  ready w db d r -> Z.of_nat (length ks) < 2 ^ 63 ->
  exists w1,
    RedisDb.Delete db ks w
    = Ret (Z.of_nat (size (supplied ks ∩ dom (keys d)))) w1 /\
    (NoDup (present_keys ks) ->
     size (supplied ks ∩ dom (keys d)) = existed_before d ks).
Proof.
  intros Hready Hlen. eexists.
  rewrite (Delete_run w db d r ks Hready).
  rewrite range_count_distinct by lia. split; [reflexivity|].
  intros Hnd. apply size_existing_NoDup, Hnd.
Qed.

Lemma Delete_counts_distinct_existing_witness :
  exists w1,
    RedisDb.Delete 1%positive [Some "a"; None; Some "zz"; Some "a"; Some "b"]
      world_ab
    = Ret 2 w1.
Proof.
  destruct (Delete_counts_distinct_existing world_ab 1%positive db_ab
              empty_registry [Some "a"; None; Some "zz"; Some "a"; Some "b"]
              ready_world_ab) as (w1 & H & _).
  - vm_compute. reflexivity.
  - exists w1. exact H.
Defined.

(** C4 (as stated) fails when a key is supplied twice: with "a" in the key
    map, [Delete("a", "a")] returns 1, while two of the supplied keys were
    in the key map just before the call. *)
Lemma Delete_repeated_key_counted_once :
  existed_before db_ab [Some "a"; Some "a"] = 2%nat /\
  (exists w1, RedisDb.Delete 1%positive [Some "a"; Some "a"] world_ab = Ret 1 w1) /\
  ~ (exists w1,
       RedisDb.Delete 1%positive [Some "a"; Some "a"] world_ab
       = Ret (Z.of_nat (existed_before db_ab [Some "a"; Some "a"])) w1).
Proof.
  split; [reflexivity|]. split.
  - eexists. vm_compute. reflexivity.
  - intros [w1 H]. vm_compute in H. discriminate H.
Qed.

(** ** Keys stay until they are removed *)

Lemma after_range_other ks k : forall d,
  Some k ∉ ks -> keys (after_range ks d) !! k = keys d !! k.
Proof.
  induction ks as [|[key|] rest IH]; intros d Hout; simpl; auto.
  - apply not_elem_of_cons in Hout. destruct Hout as [Hne Hout].
    destruct (keys d !! key).
    + rewrite IH by assumption. simpl. apply lookup_delete_ne. congruence.
    + apply IH. assumption.
  - apply not_elem_of_cons in Hout. destruct Hout as [_ Hout]. auto.
Qed.

Lemma after_call_keeps (k : string) (i : Item) (o : Op) (d : RedisDb) :
  keys d !! k = Some i -> removes k o = false ->
  keys (after_call o d) !! k = Some (last_set k [o] i).
Proof.
  intros Hk Hrem.
  destruct o as [key v|key|now key b|ks|key|key| | | | ]; simpl; auto.
  - case_bool_decide as Heq.
    + subst key. apply lookup_insert_eq.
    + rewrite lookup_insert_ne by assumption. exact Hk.
  - destruct b; auto. simpl in Hrem. apply bool_decide_eq_false in Hrem.
    destruct (keys d !! key) as [j|]; auto.
    destruct (ItemExpired now j); auto.
    simpl. rewrite lookup_delete_ne by assumption. exact Hk.
  - simpl in Hrem. apply bool_decide_eq_false in Hrem.
    rewrite after_range_other by assumption. exact Hk.
Qed.

Lemma after_calls_keeps (k : string) (os : list Op) : forall (i : Item) d,
  keys d !! k = Some i -> Forall (fun o => removes k o = false) os ->
  keys (after_calls os d) !! k = Some (last_set k os i).
Proof.
  induction os as [|o rest IH]; intros i d Hk Hall; simpl; auto.
  inversion Hall as [|? ? Ho Hrest]; subst.
  pose proof (after_call_keeps k i o d Hk Ho) as Hstep.
  rewrite (IH _ _ Hstep Hrest).
  destruct o; reflexivity.
Qed.

Lemma last_set_unwritten (k : string) (os : list Op) : forall i : Item,
  Forall (fun o => writes k o = false) os -> last_set k os i = i.
Proof.
  induction os as [|o rest IH]; intros i Hall; simpl; auto.
  inversion Hall as [|? ? Ho Hrest]; subst.
  destruct o; auto. simpl in Ho. rewrite Ho. auto.
Qed.

(** C8: a key is removed only by a [Delete] that names it or by
    [GetOrExpired(k, true)]: whatever item [k] holds, expired or not, after
    any sequence of calls none of which is such a removal of [k], issued at
    any clock readings, [Exists(k)] is true, [Keys()] contains [k], and
    [Get(k)] returns the item stored at [k], which is the one held at the
    start unless a [Set(k, _)] in the sequence has replaced it. *)
Theorem only_removals_remove w db d r (k : string) (i : Item) (os : list Op) :
  ready w db d r -> keys d !! k = Some i ->
  Forall (fun o => removes k o = false) os ->
  exists w1,
    calls db os w = Ret tt w1 /\
    RedisDb.Get db k w1 = Ret (Some (last_set k os i)) w1 /\
    RedisDb.Exists db k w1 = Ret true w1 /\
    (exists m, RedisDb.Keys db w1 = Ret m w1 /\ m !! k = Some (last_set k os i)) /\
    (Forall (fun o => writes k o = false) os -> last_set k os i = i).
Proof.
  intros Hready Hk Hall.
  destruct (calls_run db r os w d Hready) as (w1 & Hrun & Hready1).
  pose proof (after_calls_keeps k os i d Hk Hall) as Hkept.
  exists w1. split; [exact Hrun|].
  rewrite (Get_run w1 db _ r k Hready1), (Exists_run w1 db _ r k Hready1),
    (Keys_run w1 db _ r Hready1), Hkept.
  split; [reflexivity|]. split; [reflexivity|]. split.
  - eexists. split; [reflexivity|exact Hkept].
  - apply last_set_unwritten.
Qed.

Lemma only_removals_remove_witness :
  exists w1,
    calls 1%positive
      [OpGet "b"; OpGetOrExpired 100 "b" false; OpGetOrExpired 100 "a" true;
       OpDelete [Some "a"; None]; OpSet "c" plain_item; OpExists "b";
       OpExpires "b"; OpKeys; OpExpiringKeys; OpIsEmpty; OpIsEmptyExpire]
      world_ab = Ret tt w1 /\
    RedisDb.Get 1%positive "b" w1 = Ret (Some stale_item) w1 /\
    RedisDb.Exists 1%positive "b" w1 = Ret true w1 /\
    (exists m, RedisDb.Keys 1%positive w1 = Ret m w1 /\ m !! "b" = Some stale_item).
Proof.
  destruct (only_removals_remove world_ab 1%positive db_ab empty_registry
              "b" stale_item
              [OpGet "b"; OpGetOrExpired 100 "b" false; OpGetOrExpired 100 "a" true;
               OpDelete [Some "a"; None]; OpSet "c" plain_item; OpExists "b";
               OpExpires "b"; OpKeys; OpExpiringKeys; OpIsEmpty; OpIsEmptyExpire]
              ready_world_ab eq_refl)
    as (w1 & H1 & H2 & H3 & H4 & _).
  - repeat constructor.
  - exists w1. repeat split; assumption.
Defined.

(** ** The expiring-key index is within the key map *)

Lemma indexed_within_new id r : indexed_within (mkRedisDb id ∅ ∅ r).
Proof. unfold indexed_within; simpl. set_solver. Qed.

Lemma indexed_within_Set key i d :
  indexed_within d -> indexed_within (after_Set key i d).
Proof.
  unfold indexed_within, after_Set; simpl. intros H.
  destruct (Expires i); rewrite ?dom_insert_L; set_solver.
Qed.

Lemma indexed_within_delete key d :
  indexed_within d -> indexed_within (after_delete key d).
Proof.
  unfold indexed_within, after_delete; simpl. intros H.
  rewrite !dom_delete_L. set_solver.
Qed.

Lemma indexed_within_range ks : forall d,
  indexed_within d -> indexed_within (after_range ks d).
Proof.
  induction ks as [|[key|] rest IH]; intros d H; simpl; auto.
  destruct (keys d !! key); auto using indexed_within_delete.
Qed.

Lemma indexed_within_call o d :
  indexed_within d -> indexed_within (after_call o d).
Proof.
  intros H. destruct o as [key v|key|now key b|ks|key|key| | | | ]; simpl; auto.
  - apply indexed_within_Set, H.
  - destruct b; auto. destruct (keys d !! key) as [j|]; auto.
    destruct (ItemExpired now j); auto using indexed_within_delete.
  - apply indexed_within_range, H.
Qed.

Lemma indexed_within_calls os : forall d,
  indexed_within d -> indexed_within (after_calls os d).
Proof.
  induction os as [|o rest IH]; intros d H; simpl; auto.
  apply IH, indexed_within_call, H.
Qed.

(** C2: every public method returns and preserves the invariant that the
    keys of [expiringKeys] are keys of [keys]; hence the invariant holds
    after any sequence of calls on a database made by [NewRedisDb]. *)
Theorem expiringKeys_within_keys :
  (forall w db d r (o : Op),
     ready w db d r -> dom (expiringKeys d) ⊆ dom (keys d) ->
     exists w1 d1,
       call db o w = Ret tt w1 /\ ready w1 db d1 r /\
       dom (expiringKeys d1) ⊆ dom (keys d1)) /\
  (forall w r o id (os : list Op),
     redises w !! r = Some o -> mu o = RWMutex.unlocked ->
     exists db w0 w1 d1,
       NewRedisDb id r w = Ret db w0 /\
       calls db os w0 = Ret tt w1 /\ ready w1 db d1 o /\
       dom (expiringKeys d1) ⊆ dom (keys d1)).
Proof.
  split.
  - intros w db d r o Hready Hinv.
    destruct (call_run w db d r o Hready) as (w1 & Hrun & Hready1).
    exists w1, (after_call o d). split; [exact Hrun|]. split; [exact Hready1|].
    apply (indexed_within_call o d Hinv).
  - intros w r o id os Hr Hmu.
    destruct (NewRedisDb_run w id r o Hr Hmu) as (db & w0 & Hnew & _ & _ & Hready).
    destruct (calls_run db o os w0 _ Hready) as (w1 & Hrun & Hready1).
    exists db, w0, w1, (after_calls os (mkRedisDb id ∅ ∅ r)).
    split; [exact Hnew|]. split; [exact Hrun|]. split; [exact Hready1|].
    apply (indexed_within_calls os), indexed_within_new.
Qed.

Lemma expiringKeys_within_keys_witness :
  exists db w0 w1 d1,
    NewRedisDb 0%N 1%positive world0 = Ret db w0 /\
    calls db [OpSet "k" stale_item; OpSet "k" plain_item; OpSet "b" stale_item;
              OpGetOrExpired 100 "b" true; OpDelete [Some "k"; None]] w0
    = Ret tt w1 /\
    ready w1 db d1 empty_registry /\
    dom (expiringKeys d1) ⊆ dom (keys d1).
Proof.
  destruct expiringKeys_within_keys as [_ H].
  apply (H world0 1%positive empty_registry 0%N); reflexivity.
Defined.

(** ** The registry *)

Lemma RedisDb_run_found w r o dbId q :
  redises w !! r = Some o -> mu o = RWMutex.unlocked ->
  redisDbs o !! dbId = Some q ->
  Redis.RedisDb r dbId w = Ret (Some q) w.
Proof.
  intros Hr Hmu Hq.
  unfold Redis.RedisDb, bind, defer, bind, Redis.Mu, RWMutex.RLock,
    RWMutex.RUnlock, bind, load_redis, store_redis, ret.
  rewrite Hr, Hmu. simpl. rewrite lookup_insert_eq. simpl.
  rewrite lookup_insert_eq. simpl. rewrite Hq.
  rewrite (release_restores r o (mkRWMutex false 1) (redises w) Hr Hmu).
  rewrite world_eta. reflexivity.
Qed.

Lemma RedisDb_run_created w r o dbId :
  redises w !! r = Some o -> mu o = RWMutex.unlocked ->
  redisDbs o !! dbId = None ->
  Redis.RedisDb r dbId w
  = Ret (Some (fresh (dom (dbs w))))
      (after_create r o dbId (fresh (dom (dbs w))) w).
Proof.
  intros Hr Hmu Hq.
  unfold Redis.RedisDb, bind, defer, bind, Redis.Mu, RWMutex.RLock,
    RWMutex.RUnlock, RWMutex.Lock, RWMutex.Unlock, NewRedisDb, alloc_db,
    bind, load_redis, store_redis, ret.
  rewrite Hr, Hmu. simpl. rewrite lookup_insert_eq. simpl.
  rewrite lookup_insert_eq. simpl. rewrite Hq.
  rewrite (release_restores r o (mkRWMutex false 1) (redises w) Hr Hmu).
  simpl. rewrite Hr, Hmu. simpl. rewrite lookup_insert_eq. simpl. rewrite Hq.
  repeat (simpl; rewrite ?lookup_insert_eq).
  rewrite !insert_insert_eq.
  unfold after_create, set_redisDbs, set_mu; simpl.
  rewrite Hmu. reflexivity.
Qed.

(** C9: [RedisDb(dbId)] always returns a non-nil database, without blocking
    or faulting.  If the registry maps [dbId] to a database it returns that
    very address and changes nothing; otherwise it makes a new, empty
    database at an address not in use, stores it under [dbId] and returns
    it, leaving every other entry and every other object as they were.  In
    both cases the registry maps [dbId] to the returned address afterwards,
    and a second call returns the same address and changes nothing. *)
Theorem RedisDb_get_or_create w r o (dbId : DatabaseId) :
  redises w !! r = Some o -> mu o = RWMutex.unlocked ->
  exists p w1 o1,
    Redis.RedisDb r dbId w = Ret (Some p) w1 /\
    (forall q, redisDbs o !! dbId = Some q -> p = q /\ w1 = w) /\
    (redisDbs o !! dbId = None ->
       dbs w !! p = None /\
       dbs w1 = <[p := mkRedisDb dbId ∅ ∅ r]> (dbs w) /\
       redisDbs o1 = <[dbId := p]> (redisDbs o) /\
       (forall r', r' <> r -> redises w1 !! r' = redises w !! r') /\
       events w1 = events w) /\
    redises w1 !! r = Some o1 /\ mu o1 = RWMutex.unlocked /\
    redisDbs o1 !! dbId = Some p /\
    Redis.RedisDb r dbId w1 = Ret (Some p) w1.
Proof.
  intros Hr Hmu. destruct (redisDbs o !! dbId) as [q|] eqn:Hq.
  - exists q, w, o. rewrite (RedisDb_run_found w r o dbId q Hr Hmu Hq).
    repeat split; try assumption; try congruence; discriminate.
  - set (p := fresh (dom (dbs w))).
    exists p, (after_create r o dbId p w),
      (set_redisDbs (<[dbId := p]> (redisDbs o)) o).
    rewrite (RedisDb_run_created w r o dbId Hr Hmu Hq). fold p.
    assert (Hr1 : redises (after_create r o dbId p w) !! r
                  = Some (set_redisDbs (<[dbId := p]> (redisDbs o)) o))
      by (simpl; apply lookup_insert_eq).
    assert (Hp : redisDbs (set_redisDbs (<[dbId := p]> (redisDbs o)) o) !! dbId
                 = Some p)
      by (simpl; apply lookup_insert_eq).
    split; [reflexivity|]. split; [discriminate|]. split.
    + intros _. split; [apply not_elem_of_dom, is_fresh|].
      split; [reflexivity|]. split; [reflexivity|]. split; [|reflexivity].
      intros r' Hne. simpl. apply lookup_insert_ne. congruence.
    + split; [exact Hr1|]. split; [exact Hmu|]. split; [exact Hp|].
      apply (RedisDb_run_found _ r _ dbId p Hr1 Hmu Hp).
Qed.

Lemma RedisDb_get_or_create_witness :
  exists p w1,
    Redis.RedisDb 1%positive 7%N world0 = Ret (Some p) w1 /\
    dbs w1 !! p = Some (mkRedisDb 7%N ∅ ∅ 1%positive) /\
    Redis.RedisDb 1%positive 7%N w1 = Ret (Some p) w1 /\
    Redis.RedisDb 1%positive 0%N world_reg = Ret (Some 1%positive) world_reg.
Proof.
  destruct (RedisDb_get_or_create world0 1%positive empty_registry 7%N
              eq_refl eq_refl)
    as (p & w1 & o1 & Hrun & _ & Hnew & _ & _ & _ & Hagain).
  destruct (RedisDb_get_or_create world_reg 1%positive
              (mkRedis RWMutex.unlocked {[0%N := 1%positive]}) 0%N
              eq_refl eq_refl)
    as (p' & w1' & o1' & Hrun' & Hold & _).
  destruct (Hold 1%positive eq_refl) as [-> ->].
  destruct (Hnew eq_refl) as (_ & Hdbs & _).
  exists p, w1. split; [exact Hrun|]. split.
  - rewrite Hdbs. apply lookup_insert_eq.
  - split; [exact Hagain|exact Hrun'].
Defined.

(** ** More on the methods: exact effects *)

Lemma with_nothing db d w :
  dbs w !! db = Some d -> with_events [] (with_db db d w) = w.
Proof.
  intros Hd. rewrite with_db_same by exact Hd.
  unfold with_events. rewrite app_nil_r. apply world_eta.
Qed.

(** The store after one call, in closed form. *)
Lemma call_effect w db d r o :
  ready w db d r ->
  call db o w
  = Ret tt (with_events (call_events db o d) (with_db db (after_call o d) w)).
Proof.
  intros Hready. pose proof Hready as (Hd & _).
  pose proof (with_nothing db d w Hd) as Hsame.
  destruct o as [key i|key|now key b|ks|key|key| | | | ];
    unfold call, bind; simpl.
  - rewrite (Set_run w db d r key i Hready).
    unfold with_events. simpl. rewrite app_nil_r. reflexivity.
  - rewrite (Get_run w db d r key Hready), Hsame. reflexivity.
  - rewrite (GetOrExpired_run w db d r now key b Hready).
    destruct (keys d !! key) as [i|]; [|destruct b; rewrite Hsame; reflexivity].
    destruct (ItemExpired now i); [|destruct b; rewrite Hsame; reflexivity].
    destruct b; [reflexivity|rewrite Hsame; reflexivity].
  - rewrite (Delete_run w db d r ks Hready). reflexivity.
  - rewrite (Exists_run w db d r key Hready), Hsame. reflexivity.
  - rewrite (Expires_run w db d r key Hready), Hsame. reflexivity.
  - rewrite (Keys_run w db d r Hready), Hsame. reflexivity.
  - rewrite (ExpiringKeys_run w db d r Hready), Hsame. reflexivity.
  - rewrite (IsEmpty_run w db d r Hready), Hsame. reflexivity.
  - rewrite (IsEmptyExpire_run w db d r Hready), Hsame. reflexivity.
Qed.

Lemma redis_after_call o d : redis (after_call o d) = redis d.
Proof.
  destruct o as [key i|key|now key b|ks|key|key| | | | ]; simpl; auto.
  - destruct b; auto. destruct (keys d !! key) as [j|]; auto.
    destruct (ItemExpired now j); auto.
  - apply redis_after_range.
Qed.

Lemma id_after_range ks : forall d, id (after_range ks d) = id d.
Proof.
  induction ks as [|[key|] rest IH]; intros d; simpl; auto.
  destruct (keys d !! key); rewrite IH; reflexivity.
Qed.

Lemma id_after_call o d : id (after_call o d) = id d.
Proof.
  destruct o as [key i|key|now key b|ks|key|key| | | | ]; simpl; auto.
  - destruct b; auto. destruct (keys d !! key) as [j|]; auto.
    destruct (ItemExpired now j); auto.
  - apply id_after_range.
Qed.

Lemma id_redis_after_calls os : forall d,
  id (after_calls os d) = id d /\ redis (after_calls os d) = redis d.
Proof.
  induction os as [|o rest IH]; intros d; simpl; auto.
  destruct (IH (after_call o d)) as [H1 H2].
  rewrite H1, H2, id_after_call, redis_after_call. auto.
Qed.

(** The store after a sequence of calls, in closed form. *)
Lemma calls_effect db r os : forall w d,
  ready w db d r ->
  calls db os w
  = Ret tt (with_events (calls_events db os d)
              (with_db db (after_calls os d) w)).
Proof.
  induction os as [|o rest IH]; intros w d Hready; simpl.
  - rewrite with_nothing by apply Hready. reflexivity.
  - unfold bind. rewrite (call_effect w db d r o Hready).
    rewrite (IH _ (after_call o d)).
    + unfold with_events, with_db; simpl.
      rewrite insert_insert_eq, app_assoc. reflexivity.
    + apply (ready_step w db d r _ _ Hready), redis_after_call.
Qed.

(** ** Emptiness *)

Lemma size_eqb_0 {A} (m : gmap string A) :
  Nat.eqb (size m) 0 = true <-> m = ∅.
Proof. rewrite Nat.eqb_eq. apply map_size_empty_iff. Qed.

Lemma size_eqb_0_insert {A} (m : gmap string A) k v :
  Nat.eqb (size (<[k := v]> m)) 0 = false.
Proof.
  apply Nat.eqb_neq. apply map_size_non_empty_iff, insert_non_empty.
Qed.

(** X1: [IsEmpty()] is true exactly when [Exists] is false for every key.
    It is true, with [IsEmptyExpire()], on a database just made by
    [NewRedisDb]; it is false after any [Set], and so is [IsEmptyExpire()]
    when the item expires; and after [Delete] of the only key both are true
    again. *)
Theorem IsEmpty_lifecycle :
  (forall w db d r, ready w db d r ->
     exists b, RedisDb.IsEmpty db w = Ret b w /\
       (b = true <-> forall k, RedisDb.Exists db k w = Ret false w)) /\
  (forall w dbId r o, redises w !! r = Some o -> mu o = RWMutex.unlocked ->
     exists db w0, NewRedisDb dbId r w = Ret db w0 /\
       RedisDb.IsEmpty db w0 = Ret true w0 /\
       RedisDb.IsEmptyExpire db w0 = Ret true w0) /\
  (forall w db d r k v, ready w db d r ->
     exists w1, RedisDb.Set_ db k v w = Ret tt w1 /\
       RedisDb.IsEmpty db w1 = Ret false w1 /\
       (Expires v = true -> RedisDb.IsEmptyExpire db w1 = Ret false w1)) /\
  (forall w db d r k i, ready w db d r ->
     keys d !! k = Some i -> (forall k', k' <> k -> keys d !! k' = None) ->
     dom (expiringKeys d) ⊆ dom (keys d) ->
     exists w1, RedisDb.Delete db [Some k] w = Ret 1 w1 /\
       RedisDb.IsEmpty db w1 = Ret true w1 /\
       RedisDb.IsEmptyExpire db w1 = Ret true w1).
Proof.
  split; [|split; [|split]].
  - intros w db d r Hready. eexists. split; [apply (IsEmpty_run w db d r Hready)|].
    rewrite size_eqb_0, map_empty. split.
    + intros Hnone k. rewrite (Exists_run w db d r k Hready), Hnone. reflexivity.
    + intros Hex k. specialize (Hex k).
      rewrite (Exists_run w db d r k Hready) in Hex.
      destruct (keys d !! k); [discriminate Hex|reflexivity].
  - intros w dbId r o Hr Hmu.
    destruct (NewRedisDb_run w dbId r o Hr Hmu) as (db & w0 & Hnew & _ & _ & Hready).
    exists db, w0. split; [exact Hnew|].
    rewrite (IsEmpty_run w0 db _ o Hready), (IsEmptyExpire_run w0 db _ o Hready).
    split; reflexivity.
  - intros w db d r k v Hready. eexists.
    split; [apply (Set_run w db d r k v Hready)|].
    assert (Hready1 := ready_with_db w db d r (after_Set k v d) Hready eq_refl).
    rewrite (IsEmpty_run _ db _ r Hready1), (IsEmptyExpire_run _ db _ r Hready1).
    simpl. rewrite size_eqb_0_insert. split; [reflexivity|].
    intros ->. rewrite size_eqb_0_insert. reflexivity.
  - intros w db d r k i Hready Hk Honly Hinv. eexists.
    rewrite (Delete_run w db d r [Some k] Hready). simpl. rewrite Hk.
    split; [reflexivity|].
    assert (Hready1 := ready_step w db d r (after_delete k d)
                         [OnDeleteCall i k db d] Hready eq_refl).
    rewrite (IsEmpty_run _ db _ r Hready1), (IsEmptyExpire_run _ db _ r Hready1).
    assert (HK : base.delete k (keys d) = ∅).
    { apply map_empty. intros k'. destruct (decide (k' = k)) as [->|Hne].
      - apply lookup_delete_eq.
      - rewrite lookup_delete_ne by congruence. auto. }
    assert (HE : base.delete k (expiringKeys d) = ∅).
    { apply map_empty. intros k'. destruct (decide (k' = k)) as [->|Hne].
      - apply lookup_delete_eq.
      - rewrite lookup_delete_ne by congruence.
        apply not_elem_of_dom. intros Hin. apply Hinv in Hin.
        apply elem_of_dom in Hin. rewrite Honly in Hin by assumption.
        destruct Hin as [? Hin]. discriminate Hin. }
    simpl. rewrite HK, HE. split; reflexivity.
Qed.

Lemma IsEmpty_lifecycle_witness :
  (exists db w0, NewRedisDb 0%N 1%positive world0 = Ret db w0 /\
     RedisDb.IsEmpty db w0 = Ret true w0 /\
     RedisDb.IsEmptyExpire db w0 = Ret true w0) /\
  (exists w1, RedisDb.Set_ 1%positive "c" stale_item world_ab = Ret tt w1 /\
     RedisDb.IsEmpty 1%positive w1 = Ret false w1 /\
     RedisDb.IsEmptyExpire 1%positive w1 = Ret false w1) /\
  (exists w1, RedisDb.Delete 1%positive [Some "k"] world_k = Ret 1 w1 /\
     RedisDb.IsEmpty 1%positive w1 = Ret true w1 /\
     RedisDb.IsEmptyExpire 1%positive w1 = Ret true w1).
Proof.
  destruct IsEmpty_lifecycle as (_ & Hnew & Hset & Hdel).
  split; [apply (Hnew world0 0%N 1%positive empty_registry); reflexivity|].
  split.
  - destruct (Hset world_ab 1%positive db_ab empty_registry "c" stale_item
                ready_world_ab) as (w1 & H1 & H2 & H3).
    exists w1. split; [exact H1|]. split; [exact H2|]. apply H3. reflexivity.
  - apply (Hdel world_k 1%positive db_k empty_registry "k" stale_item).
    + repeat split.
    + reflexivity.
    + intros k' Hne. unfold db_k; simpl.
      rewrite lookup_insert_ne by congruence. apply lookup_empty.
    + unfold db_k; simpl. reflexivity.
Defined.

(** ** What [Set] touches *)

(** X2: [Set(k, v)] calls no deletion hook, not even that of an item it
    overwrites; it leaves the registry and every other database object as
    they were; and for every other key of the receiver [Get], [Exists] and
    [Expires] answer as before. *)
Theorem Set_leaves_the_rest w db d r (k : string) (v : Item) :
  ready w db d r ->
  exists w1,
    RedisDb.Set_ db k v w = Ret tt w1 /\
    events w1 = events w /\
    redises w1 = redises w /\
    (forall db', db' <> db -> dbs w1 !! db' = dbs w !! db') /\
    (forall k', k' <> k ->
       result (RedisDb.Get db k' w1) = result (RedisDb.Get db k' w) /\
       result (RedisDb.Exists db k' w1) = result (RedisDb.Exists db k' w) /\
       result (RedisDb.Expires db k' w1) = result (RedisDb.Expires db k' w)).
Proof.
  intros Hready. eexists. split; [apply (Set_run w db d r k v Hready)|].
  assert (Hready1 := ready_with_db w db d r (after_Set k v d) Hready eq_refl).
  split; [reflexivity|]. split; [reflexivity|]. split.
  - intros db' Hne. simpl. apply lookup_insert_ne. congruence.
  - intros k' Hne.
    rewrite (Get_run _ db _ r k' Hready1), (Get_run w db d r k' Hready),
      (Exists_run _ db _ r k' Hready1), (Exists_run w db d r k' Hready),
      (Expires_run _ db _ r k' Hready1), (Expires_run w db d r k' Hready).
    simpl. rewrite lookup_insert_ne by congruence.
    destruct (Expires v); rewrite ?lookup_insert_ne by congruence; auto.
Qed.

Lemma Set_leaves_the_rest_witness :
  exists w1,
    RedisDb.Set_ 1%positive "b" plain_item world_ab = Ret tt w1 /\
    events w1 = [] /\
    result (RedisDb.Get 1%positive "a" w1) = Some (Some plain_item).
Proof.
  destruct (Set_leaves_the_rest world_ab 1%positive db_ab empty_registry
              "b" plain_item ready_world_ab) as (w1 & H1 & H2 & _ & _ & H3).
  exists w1. split; [exact H1|]. split; [exact H2|].
  destruct (H3 "a") as [-> _]; [discriminate|reflexivity].
Defined.

(** X3: after [Set(k, v)] with an item that expires, the expiring-key index
    holds [v] at [k] and [Expires(k)] is true; with an item that does not
    expire, [Set] leaves the index exactly as it was, so [Expires(k)] answers
    what it answered before the call. *)
Theorem Set_indexes_expiring_item w db d r (k : string) (v : Item) :
  ready w db d r ->
  exists w1 m,
    RedisDb.Set_ db k v w = Ret tt w1 /\
    RedisDb.ExpiringKeys db w1 = Ret m w1 /\
    (Expires v = true ->
       m !! k = Some v /\ RedisDb.Expires db k w1 = Ret true w1) /\
    (Expires v = false ->
       RedisDb.ExpiringKeys db w = Ret m w /\
       result (RedisDb.Expires db k w1) = result (RedisDb.Expires db k w)).
Proof.
  intros Hready. eexists _, _. split; [apply (Set_run w db d r k v Hready)|].
  assert (Hready1 := ready_with_db w db d r (after_Set k v d) Hready eq_refl).
  rewrite (ExpiringKeys_run _ db _ r Hready1), (Expires_run _ db _ r k Hready1),
    (ExpiringKeys_run w db d r Hready), (Expires_run w db d r k Hready).
  split; [reflexivity|]. simpl. split; intros ->.
  - rewrite lookup_insert_eq. split; reflexivity.
  - split; reflexivity.
Qed.

Lemma Set_indexes_expiring_item_witness :
  (exists w1 m,
     RedisDb.Set_ 1%positive "a" stale_item world_ab = Ret tt w1 /\
     RedisDb.ExpiringKeys 1%positive w1 = Ret m w1 /\
     m !! "a" = Some stale_item /\
     RedisDb.Expires 1%positive "a" w1 = Ret true w1) /\
  (exists w1 m,
     RedisDb.Set_ 1%positive "c" plain_item world_ab = Ret tt w1 /\
     RedisDb.ExpiringKeys 1%positive w1 = Ret m w1 /\
     RedisDb.ExpiringKeys 1%positive world_ab = Ret m world_ab /\
     result (RedisDb.Expires 1%positive "c" w1) = Some false).
Proof.
  split.
  - destruct (Set_indexes_expiring_item world_ab 1%positive db_ab empty_registry
                "a" stale_item ready_world_ab) as (w1 & m & H1 & H2 & H3 & _).
    destruct (H3 eq_refl) as [H4 H5].
    exists w1, m. repeat split; assumption.
  - destruct (Set_indexes_expiring_item world_ab 1%positive db_ab empty_registry
                "c" plain_item ready_world_ab) as (w1 & m & H1 & H2 & _ & H3).
    destruct (H3 eq_refl) as [H4 H5].
    exists w1, m. split; [exact H1|]. split; [exact H2|]. split; [exact H4|].
    rewrite H5. reflexivity.
Defined.

(** ** What [Delete] leaves behind *)

Lemma after_range_keys_in ks k d :
  Some k ∈ ks -> keys (after_range ks d) !! k = None.
Proof.
  intros Hin. destruct (keys d !! k) as [i|] eqn:Hk.
  - destruct (range_events_present 1%positive ks k i d Hk Hin)
      as (_ & _ & _ & _ & H & _). exact H.
  - apply after_range_keys_None, Hk.
Qed.

Lemma after_range_expiringKeys_in ks k d :
  Some k ∈ ks -> (keys d !! k = None -> expiringKeys d !! k = None) ->
  expiringKeys (after_range ks d) !! k = None.
Proof.
  intros Hin Hinv. destruct (keys d !! k) as [i|] eqn:Hk.
  - destruct (range_events_present 1%positive ks k i d Hk Hin)
      as (_ & _ & _ & _ & _ & H). exact H.
  - apply after_range_expiringKeys_None. auto.
Qed.

Lemma after_range_expiringKeys_other ks k : forall d,
  Some k ∉ ks -> expiringKeys (after_range ks d) !! k = expiringKeys d !! k.
Proof.
  induction ks as [|[key|] rest IH]; intros d Hout; simpl; auto.
  - apply not_elem_of_cons in Hout. destruct Hout as [Hne Hout].
    destruct (keys d !! key).
    + rewrite IH by assumption. simpl. apply lookup_delete_ne. congruence.
    + apply IH. assumption.
  - apply not_elem_of_cons in Hout. destruct Hout as [_ Hout]. auto.
Qed.

(** Naming only keys that are not there does nothing. *)
Lemma range_absent db ks : forall d c,
  (forall k, Some k ∈ ks -> keys d !! k = None) ->
  after_range ks d = d /\ range_events db ks d = [] /\ range_count ks d c = c.
Proof.
  induction ks as [|[key|] rest IH]; intros d c Habs; simpl; auto.
  - rewrite (Habs key) by (apply elem_of_cons; auto).
    apply IH. intros k Hin. apply Habs, elem_of_cons. auto.
  - apply IH. intros k Hin. apply Habs, elem_of_cons. auto.
Qed.

(** The loop counts one for each hook it calls. *)
Lemma range_count_events db ks : forall d c,
  0 <= c -> c + Z.of_nat (length ks) < 2 ^ 63 ->
  range_count ks d c = c + Z.of_nat (length (range_events db ks d)).
Proof.
  induction ks as [|[key|] rest IH]; intros d c Hc Hlen;
    cbn [range_count range_events]; cbn [length] in Hlen.
  - simpl. lia.
  - destruct (keys d !! key) as [i|].
    + rewrite IH by (try rewrite int64_incr_small; lia).
      rewrite int64_incr_small by lia. cbn [length]. lia.
    + apply IH; lia.
  - apply IH; lia.
Qed.

(** Each hook call of the loop is for a supplied key, with the item the key
    map held there when the loop started. *)
Lemma range_events_sound db ks : forall d e,
  e ∈ range_events db ks d ->
  exists i k seen,
    e = OnDeleteCall i k db seen /\ Some k ∈ ks /\ keys d !! k = Some i.
Proof.
  induction ks as [|[key|] rest IH]; intros d e Hin; simpl in Hin.
  - inversion Hin.
  - destruct (keys d !! key) as [j|] eqn:Hkey.
    + apply elem_of_cons in Hin. destruct Hin as [->|Hin].
      * exists j, key, d. repeat split; [apply elem_of_cons; auto|exact Hkey].
      * destruct (IH _ _ Hin) as (i & k & seen & He & Hk & Hi).
        simpl in Hi. apply lookup_delete_Some in Hi. destruct Hi as [_ Hi].
        exists i, k, seen. repeat split; [exact He|apply elem_of_cons; auto|exact Hi].
    + destruct (IH _ _ Hin) as (i & k & seen & He & Hk & Hi).
      exists i, k, seen. repeat split; [exact He|apply elem_of_cons; auto|exact Hi].
  - destruct (IH _ _ Hin) as (i & k & seen & He & Hk & Hi).
    exists i, k, seen. repeat split; [exact He|apply elem_of_cons; auto|exact Hi].
Qed.

(** No key gets two hook calls from one loop. *)
Lemma range_events_NoDup db ks : forall d,
  NoDup (event_key <$> range_events db ks d).
Proof.
  induction ks as [|[key|] rest IH]; intros d; simpl.
  - constructor.
  - destruct (keys d !! key) as [j|] eqn:Hkey; [|apply IH].
    rewrite fmap_cons. apply NoDup_cons. split; [|apply IH].
    simpl. intros Hin. apply list_elem_of_fmap in Hin.
    destruct Hin as (e & He & Hin).
    destruct (range_events_sound _ _ _ _ Hin) as (i & k & seen & -> & _ & Hi).
    simpl in He. subst k. simpl in Hi. rewrite lookup_delete_eq in Hi.
    discriminate Hi.
  - apply IH.
Qed.

(** X4: after [Delete(ks...)] on a database whose expiring-key index is
    within its key map, every supplied key is gone from both maps ([Get]
    returns nil, [Exists] and [Expires] are false), and for every key that
    was not supplied [Get], [Exists] and [Expires] answer as before. *)
Theorem Delete_removes_exactly_the_supplied w db d r (ks : list (option string)) :
  ready w db d r -> dom (expiringKeys d) ⊆ dom (keys d) ->
  exists c w1,
    RedisDb.Delete db ks w = Ret c w1 /\
    (forall k, Some k ∈ ks ->
       RedisDb.Get db k w1 = Ret None w1 /\
       RedisDb.Exists db k w1 = Ret false w1 /\
       RedisDb.Expires db k w1 = Ret false w1) /\
    (forall k, Some k ∉ ks ->
       result (RedisDb.Get db k w1) = result (RedisDb.Get db k w) /\
       result (RedisDb.Exists db k w1) = result (RedisDb.Exists db k w) /\
       result (RedisDb.Expires db k w1) = result (RedisDb.Expires db k w)).
Proof.
  intros Hready Hinv. eexists _, _.
  split; [apply (Delete_run w db d r ks Hready)|].
  assert (Hready1 := ready_step w db d r (after_range ks d)
                       (range_events db ks d) Hready (redis_after_range ks d)).
  split; intros k Hk;
    rewrite (Get_run _ db _ r k Hready1), (Exists_run _ db _ r k Hready1),
      (Expires_run _ db _ r k Hready1).
  - rewrite (after_range_keys_in ks k d Hk).
    rewrite (after_range_expiringKeys_in ks k d Hk).
    + repeat split.
    + intros Hnone. apply not_elem_of_dom. intros Hin. apply Hinv in Hin.
      apply not_elem_of_dom in Hnone. contradiction.
  - rewrite (Get_run w db d r k Hready), (Exists_run w db d r k Hready),
      (Expires_run w db d r k Hready).
    rewrite (after_range_other ks k d Hk), (after_range_expiringKeys_other ks k d Hk).
    repeat split.
Qed.

Lemma Delete_removes_exactly_the_supplied_witness :
  exists c w1,
    RedisDb.Delete 1%positive [Some "b"; None; Some "zz"] world_ab = Ret c w1 /\
    RedisDb.Get 1%positive "b" w1 = Ret None w1 /\
    RedisDb.Expires 1%positive "b" w1 = Ret false w1 /\
    result (RedisDb.Get 1%positive "a" w1) = Some (Some plain_item).
Proof.
  destruct (Delete_removes_exactly_the_supplied world_ab 1%positive db_ab
              empty_registry [Some "b"; None; Some "zz"] ready_world_ab)
    as (c & w1 & Hrun & Hin & Hout).
  - unfold db_ab; simpl. rewrite !dom_insert_L. set_solver.
  - exists c, w1. split; [exact Hrun|].
    destruct (Hin "b") as (H1 & _ & H3); [apply elem_of_cons; auto|].
    destruct (Hout "a") as (H4 & _).
    { intros H. apply elem_of_cons in H. destruct H as [H|H]; [discriminate|].
      apply elem_of_cons in H. destruct H as [H|H]; [discriminate|].
      apply elem_of_cons in H. destruct H as [H|H]; [discriminate|].
      inversion H. }
    split; [exact H1|]. split; [exact H3|]. rewrite H4. reflexivity.
Defined.

Lemma Delete_of_absent_keys_is_noop_aux w db d r (ks : list (option string)) :
  ready w db d r ->
  (forall k, Some k ∈ ks -> keys d !! k = None) ->
  RedisDb.Delete db ks w = Ret 0 w.
Proof.
  intros Hready Habs. rewrite (Delete_run w db d r ks Hready).
  destruct (range_absent db ks d 0 Habs) as (-> & -> & ->).
  rewrite with_nothing by apply Hready. reflexivity.
Qed.

(** X5: a [Delete] that names no key of the key map (an empty argument
    list, nil references, keys that are not there) returns 0, calls no hook
    and leaves the store as it was. *)
Theorem Delete_of_absent_keys_is_noop w db d r (ks : list (option string)) :
  ready w db d r ->
  (forall k, Some k ∈ ks -> keys d !! k = None) ->
  RedisDb.Delete db ks w = Ret 0 w.
Proof. apply Delete_of_absent_keys_is_noop_aux. Qed.

Lemma Delete_of_absent_keys_is_noop_witness :
  RedisDb.Delete 1%positive [] world_ab = Ret 0 world_ab /\
  RedisDb.Delete 1%positive [None; Some "zz"; None] world_ab = Ret 0 world_ab.
Proof.
  split.
  - apply (Delete_of_absent_keys_is_noop world_ab 1%positive db_ab
             empty_registry [] ready_world_ab).
    intros k H. inversion H.
  - apply (Delete_of_absent_keys_is_noop world_ab 1%positive db_ab
             empty_registry [None; Some "zz"; None] ready_world_ab).
    intros k H.
    apply elem_of_cons in H. destruct H as [H|H]; [discriminate|].
    apply elem_of_cons in H. destruct H as [H|H]; [injection H as ->; reflexivity|].
    apply elem_of_cons in H. destruct H as [H|H]; [discriminate|]. inversion H.
Defined.

(** X6: repeating a [Delete] with the same arguments right away returns 0,
    calls no hook and changes nothing. *)
Theorem Delete_twice w db d r (ks : list (option string)) :
  ready w db d r ->
  exists c w1,
    RedisDb.Delete db ks w = Ret c w1 /\
    RedisDb.Delete db ks w1 = Ret 0 w1.
Proof.
  intros Hready. eexists _, _.
  split; [apply (Delete_run w db d r ks Hready)|].
  apply (Delete_of_absent_keys_is_noop_aux _ db (after_range ks d) r ks).
  - apply (ready_step w db d r _ _ Hready), redis_after_range.
  - intros k Hk. apply after_range_keys_in, Hk.
Qed.

Lemma Delete_twice_witness :
  exists c w1,
    RedisDb.Delete 1%positive [Some "a"; Some "b"; Some "a"] world_ab = Ret c w1 /\
    RedisDb.Delete 1%positive [Some "a"; Some "b"; Some "a"] w1 = Ret 0 w1.
Proof.
  apply (Delete_twice world_ab 1%positive db_ab empty_registry
           [Some "a"; Some "b"; Some "a"] ready_world_ab).
Defined.

(** X7: [Delete] returns the number of hook calls it makes; each call is
    for a supplied key, with the item the key map held at that key before
    [Delete] started, and no key gets more than one call.  The argument
    list is as long as a Go slice can be. *)
Theorem Delete_counts_its_hook_calls w db d r (ks : list (option string)) :
  ready w db d r -> Z.of_nat (length ks) < 2 ^ 63 ->
  exists w1 evs,
    RedisDb.Delete db ks w = Ret (Z.of_nat (length evs)) w1 /\
    events w1 = events w ++ evs /\
    (forall e, e ∈ evs ->
       exists i k seen,
         e = OnDeleteCall i k db seen /\ Some k ∈ ks /\
         RedisDb.Get db k w = Ret (Some i) w) /\
    NoDup (event_key <$> evs).
Proof.
  intros Hready Hlen. eexists _, (range_events db ks d).
  rewrite (Delete_run w db d r ks Hready).
  rewrite (range_count_events db) by lia.
  split; [reflexivity|]. split; [reflexivity|]. split.
  - intros e He.
    destruct (range_events_sound db ks d e He) as (i & k & seen & H1 & H2 & H3).
    exists i, k, seen. rewrite (Get_run w db d r k Hready), H3. auto.
  - apply range_events_NoDup.
Qed.

Lemma Delete_counts_its_hook_calls_witness :
  exists w1 evs,
    RedisDb.Delete 1%positive [Some "b"; None; Some "b"; Some "a"] world_ab
    = Ret (Z.of_nat (length evs)) w1 /\
    events w1 = events world_ab ++ evs /\
    NoDup (event_key <$> evs).
Proof.
  destruct (Delete_counts_its_hook_calls world_ab 1%positive db_ab
              empty_registry [Some "b"; None; Some "b"; Some "a"] ready_world_ab)
    as (w1 & evs & H1 & H2 & _ & H3).
  - vm_compute. reflexivity.
  - exists w1, evs. auto.
Defined.

(** X8: on a database where [k] is in neither map, [Set(k, v)] followed by
    [Delete(k)] returns 1 and puts every database object and the registry
    back as they were; the one trace it leaves is the hook call for [v],
    made while [v] was stored. *)
Theorem Set_then_Delete_restores w db d r (k : string) (v : Item) :
  ready w db d r -> keys d !! k = None -> expiringKeys d !! k = None ->
  exists w1 w2 seen,
    RedisDb.Set_ db k v w = Ret tt w1 /\
    RedisDb.Delete db [Some k] w1 = Ret 1 w2 /\
    dbs w2 = dbs w /\ redises w2 = redises w /\
    events w2 = events w ++ [OnDeleteCall v k db seen] /\
    keys seen !! k = Some v.
Proof.
  intros Hready Hk He. pose proof Hready as (Hd & _).
  eexists _, _, (after_Set k v d).
  split; [apply (Set_run w db d r k v Hready)|].
  assert (Hready1 := ready_with_db w db d r (after_Set k v d) Hready eq_refl).
  rewrite (Delete_run _ db _ r [Some k] Hready1). simpl.
  rewrite lookup_insert_eq. split; [reflexivity|]. simpl.
  split; [|split; [reflexivity|split; reflexivity]].
  rewrite insert_insert_eq.
  assert (Hback : after_delete k (after_Set k v d) = d).
  { unfold after_delete, after_Set; simpl.
    rewrite delete_insert_id by exact Hk.
    destruct (Expires v).
    - rewrite delete_insert_id by exact He. destruct d; reflexivity.
    - rewrite delete_id by exact He. destruct d; reflexivity. }
  rewrite Hback. apply insert_id, Hd.
Qed.

Lemma Set_then_Delete_restores_witness :
  exists w1 w2 seen,
    RedisDb.Set_ 1%positive "c" stale_item world_ab = Ret tt w1 /\
    RedisDb.Delete 1%positive [Some "c"] w1 = Ret 1 w2 /\
    dbs w2 = dbs world_ab /\ redises w2 = redises world_ab /\
    events w2 = events world_ab ++ [OnDeleteCall stale_item "c" 1%positive seen] /\
    keys seen !! "c" = Some stale_item.
Proof.
  apply (Set_then_Delete_restores world_ab 1%positive db_ab empty_registry
           "c" stale_item ready_world_ab); reflexivity.
Defined.

(** ** The expiring-key index and the items that expire *)

Lemma index_sound_call o d : index_sound d -> index_sound (after_call o d).
Proof.
  assert (Hdel : forall key d0, index_sound d0 -> index_sound (after_delete key d0)).
  { intros key d0 H k i Hk. simpl in Hk. apply lookup_delete_Some in Hk.
    apply (H k i), Hk. }
  assert (Hrange : forall ks d0, index_sound d0 -> index_sound (after_range ks d0)).
  { induction ks as [|[key|] rest IH]; intros d0 H; simpl; auto.
    destruct (keys d0 !! key); auto. }
  intros H. destruct o as [key v|key|now key b|ks|key|key| | | | ]; simpl; auto.
  - intros k i Hk. unfold after_Set in Hk; simpl in Hk.
    destruct (Expires v) eqn:Hv; [|apply (H k i Hk)].
    destruct (decide (key = k)) as [->|Hne].
    + rewrite lookup_insert_eq in Hk. congruence.
    + rewrite lookup_insert_ne in Hk by assumption. apply (H k i Hk).
  - destruct b; auto. destruct (keys d !! key) as [j|]; auto.
    destruct (ItemExpired now j); auto.
Qed.

Lemma index_complete_call o d :
  index_complete d -> index_complete (after_call o d).
Proof.
  assert (Hdel : forall key d0, index_complete d0 -> index_complete (after_delete key d0)).
  { intros key d0 H k i Hk Hi. simpl in Hk |- *.
    apply lookup_delete_Some in Hk. destruct Hk as [Hne Hk].
    rewrite lookup_delete_ne by assumption. apply (H k i Hk Hi). }
  assert (Hrange : forall ks d0, index_complete d0 -> index_complete (after_range ks d0)).
  { induction ks as [|[key|] rest IH]; intros d0 H; simpl; auto.
    destruct (keys d0 !! key); auto. }
  intros H. destruct o as [key v|key|now key b|ks|key|key| | | | ]; simpl; auto.
  - intros k i Hk Hi. unfold after_Set in Hk |- *; simpl in Hk |- *.
    destruct (decide (key = k)) as [->|Hne].
    + rewrite lookup_insert_eq in Hk. injection Hk as ->.
      rewrite Hi. apply lookup_insert_eq.
    + rewrite lookup_insert_ne in Hk by assumption.
      destruct (Expires v); rewrite ?lookup_insert_ne by assumption;
        apply (H k i Hk Hi).
  - destruct b; auto. destruct (keys d !! key) as [j|]; auto.
    destruct (ItemExpired now j); auto.
Qed.

Lemma index_sound_complete_calls os : forall d,
  index_sound d -> index_complete d ->
  index_sound (after_calls os d) /\ index_complete (after_calls os d).
Proof.
  induction os as [|o rest IH]; intros d Hs Hc; simpl; auto.
  apply IH; [apply index_sound_call|apply index_complete_call]; assumption.
Qed.

(** X9: every public method preserves two facts about the expiring-key
    index: each item in it reports [Expires()], and each item of the key map
    that reports [Expires()] is in it under the same key.  Both hold after
    any sequence of calls on a database made by [NewRedisDb]; so there,
    whenever [GetOrExpired(k, false)] answers nil for an existing key,
    [Expires(k)] is true. *)
Theorem index_tracks_expiring_items :
  (forall w db d r (o : Op),
     ready w db d r -> index_sound d -> index_complete d ->
     exists w1 d1,
       call db o w = Ret tt w1 /\ ready w1 db d1 r /\
       index_sound d1 /\ index_complete d1) /\
  (forall w r o dbId (os : list Op),
     redises w !! r = Some o -> mu o = RWMutex.unlocked ->
     exists db w0 w1 d1,
       NewRedisDb dbId r w = Ret db w0 /\
       calls db os w0 = Ret tt w1 /\ ready w1 db d1 o /\
       index_sound d1 /\ index_complete d1 /\
       forall now k,
         RedisDb.Exists db k w1 = Ret true w1 ->
         RedisDb.GetOrExpired now db k false w1 = Ret None w1 ->
         RedisDb.Expires db k w1 = Ret true w1).
Proof.
  split.
  - intros w db d r o Hready Hs Hc.
    destruct (call_run w db d r o Hready) as (w1 & Hrun & Hready1).
    exists w1, (after_call o d). split; [exact Hrun|]. split; [exact Hready1|].
    split; [apply index_sound_call|apply index_complete_call]; assumption.
  - intros w r o dbId os Hr Hmu.
    destruct (NewRedisDb_run w dbId r o Hr Hmu) as (db & w0 & Hnew & _ & _ & Hready).
    destruct (calls_run db o os w0 _ Hready) as (w1 & Hrun & Hready1).
    destruct (index_sound_complete_calls os (mkRedisDb dbId ∅ ∅ r)) as [Hs Hc].
    { intros k i Hk. simpl in Hk. rewrite lookup_empty in Hk. discriminate Hk. }
    { intros k i Hk. simpl in Hk. rewrite lookup_empty in Hk. discriminate Hk. }
    exists db, w0, w1, (after_calls os (mkRedisDb dbId ∅ ∅ r)).
    split; [exact Hnew|]. split; [exact Hrun|]. split; [exact Hready1|].
    split; [exact Hs|]. split; [exact Hc|].
    intros now k Hex Hnil.
    rewrite (Exists_run w1 db _ o k Hready1) in Hex.
    rewrite (GetOrExpired_run w1 db _ o now k false Hready1) in Hnil.
    rewrite (Expires_run w1 db _ o k Hready1).
    destruct (keys (after_calls os (mkRedisDb dbId ∅ ∅ r)) !! k) as [i|] eqn:Hk;
      [|discriminate Hex].
    destruct (ItemExpired now i) eqn:Hx; [|discriminate Hnil].
    apply ItemExpired_true_iff in Hx. destruct Hx as [Hi _].
    rewrite (Hc k i Hk Hi). reflexivity.
Qed.

Lemma index_tracks_expiring_items_witness :
  exists db w0 w1 d1,
    NewRedisDb 0%N 1%positive world0 = Ret db w0 /\
    calls db [OpSet "k" stale_item; OpSet "k" plain_item; OpSet "b" stale_item;
              OpDelete [Some "zz"]] w0 = Ret tt w1 /\
    ready w1 db d1 empty_registry /\
    index_sound d1 /\ index_complete d1 /\
    RedisDb.Expires db "b" w1 = Ret true w1.
Proof.
  destruct index_tracks_expiring_items as [_ H].
  destruct (H world0 1%positive empty_registry 0%N
              [OpSet "k" stale_item; OpSet "k" plain_item; OpSet "b" stale_item;
               OpDelete [Some "zz"]] eq_refl eq_refl)
    as (db & w0 & w1 & d1 & H1 & H2 & H3 & H4 & H5 & H6).
  exists db, w0, w1, d1. repeat (split; [assumption|]).
  vm_compute in H1. injection H1 as <- <-.
  vm_compute in H2. injection H2 as <-.
  apply (H6 100 "b"); vm_compute; reflexivity.
Defined.

(** ** What a call on one database leaves alone *)

Lemma Id_run w db d :
  dbs w !! db = Some d -> RedisDb.Id db w = Ret (id d) w.
Proof. intros Hd. unfold RedisDb.Id, bind, load_db, ret. rewrite Hd. reflexivity. Qed.

Lemma Redis_run w db d :
  dbs w !! db = Some d -> RedisDb.Redis db w = Ret (redis d) w.
Proof. intros Hd. unfold RedisDb.Redis, bind, load_db, ret. rewrite Hd. reflexivity. Qed.

Lemma Mu_run w db d :
  dbs w !! db = Some d -> RedisDb.Mu db w = Ret (redis d) w.
Proof.
  intros Hd. unfold RedisDb.Mu, bind. rewrite (Redis_run w db d Hd).
  reflexivity.
Qed.

(** X10: any sequence of public calls on one database returns with the
    mutex free again, leaves the registry and every other database object as
    they were, only adds to the record of hook calls, and never changes what
    [Id()], [Redis()] and [Mu()] return for the receiver. *)
Theorem calls_leave_the_rest w db d r (os : list Op) :
  ready w db d r ->
  exists w1 d1 evs,
    calls db os w = Ret tt w1 /\ ready w1 db d1 r /\
    redises w1 = redises w /\
    (forall db', db' <> db -> dbs w1 !! db' = dbs w !! db') /\
    events w1 = events w ++ evs /\
    RedisDb.Id db w1 = Ret (id d) w1 /\ RedisDb.Id db w = Ret (id d) w /\
    RedisDb.Redis db w1 = Ret (redis d) w1 /\
    RedisDb.Redis db w = Ret (redis d) w /\
    RedisDb.Mu db w1 = Ret (redis d) w1 /\ RedisDb.Mu db w = Ret (redis d) w.
Proof.
  intros Hready. pose proof Hready as (Hd & _).
  destruct (id_redis_after_calls os d) as [Hid Hredis].
  assert (Hready1 := ready_step w db d r (after_calls os d)
                       (calls_events db os d) Hready Hredis).
  pose proof Hready1 as (Hd1 & _).
  eexists _, (after_calls os d), (calls_events db os d).
  split; [apply (calls_effect db r os w d Hready)|].
  split; [exact Hready1|]. split; [reflexivity|]. split.
  - intros db' Hne. simpl. apply lookup_insert_ne. congruence.
  - split; [reflexivity|].
    rewrite (Id_run _ db _ Hd1), (Redis_run _ db _ Hd1), (Mu_run _ db _ Hd1),
      (Id_run w db d Hd), (Redis_run w db d Hd), (Mu_run w db d Hd), Hid, Hredis.
    repeat split.
Qed.

Lemma calls_leave_the_rest_witness :
  exists w1 d1 evs,
    calls 1%positive
      [OpSet "c" stale_item; OpGetOrExpired 100 "b" true; OpDelete [Some "a"];
       OpKeys; OpIsEmpty] world_ab = Ret tt w1 /\
    ready w1 1%positive d1 empty_registry /\
    redises w1 = redises world_ab /\
    events w1 = events world_ab ++ evs /\
    RedisDb.Id 1%positive w1 = Ret 0%N w1.
Proof.
  destruct (calls_leave_the_rest world_ab 1%positive db_ab empty_registry
              [OpSet "c" stale_item; OpGetOrExpired 100 "b" true;
               OpDelete [Some "a"]; OpKeys; OpIsEmpty] ready_world_ab)
    as (w1 & d1 & evs & H1 & H2 & H3 & _ & H4 & H5 & _).
  exists w1, d1, evs. auto.
Defined.

(** ** More on the registry *)

Lemma RedisDbs_run w r o :
  redises w !! r = Some o -> mu o = RWMutex.unlocked ->
  Redis.RedisDbs r w = Ret (redisDbs o) w.
Proof.
  intros Hr Hmu.
  unfold Redis.RedisDbs, bind, defer, bind, Redis.Mu, RWMutex.RLock,
    RWMutex.RUnlock, bind, load_redis, store_redis, ret.
  rewrite Hr, Hmu. simpl. rewrite lookup_insert_eq. simpl.
  rewrite lookup_insert_eq. simpl.
  rewrite (release_restores r o (mkRWMutex false 1) (redises w) Hr Hmu).
  rewrite world_eta. reflexivity.
Qed.

(** One call of [RedisDb] on a consistent registry. *)
Lemma RedisDb_step w r dbId :
  registry_ok w r ->
  exists p w1 o o1,
    redises w !! r = Some o /\
    Redis.RedisDb r dbId w = Ret (Some p) w1 /\
    registry_ok w1 r /\
    redises w1 !! r = Some o1 /\ mu o1 = RWMutex.unlocked /\
    redisDbs o1 !! dbId = Some p /\
    (forall i, i <> dbId -> redisDbs o1 !! i = redisDbs o !! i).
Proof.
  intros (o & Hr & Hmu & Hreg).
  destruct (redisDbs o !! dbId) as [q|] eqn:Hq.
  - exists q, w, o, o. rewrite (RedisDb_run_found w r o dbId q Hr Hmu Hq).
    repeat split; auto. exists o. auto.
  - set (p := fresh (dom (dbs w))).
    assert (Hp : dbs w !! p = None) by (apply not_elem_of_dom, is_fresh).
    exists p, (after_create r o dbId p w), o,
      (set_redisDbs (<[dbId := p]> (redisDbs o)) o).
    rewrite (RedisDb_run_created w r o dbId Hr Hmu Hq). fold p.
    split; [exact Hr|]. split; [reflexivity|]. split.
    + exists (set_redisDbs (<[dbId := p]> (redisDbs o)) o).
      split; [simpl; apply lookup_insert_eq|]. split; [exact Hmu|].
      intros i q Hi. simpl in Hi |- *.
      destruct (decide (dbId = i)) as [<-|Hne].
      * rewrite lookup_insert_eq in Hi. injection Hi as <-.
        rewrite lookup_insert_eq. eauto.
      * rewrite lookup_insert_ne in Hi by assumption.
        destruct (Hreg i q Hi) as (d & Hd & Hid & Hredis).
        exists d. rewrite lookup_insert_ne by congruence. auto.
    + split; [simpl; apply lookup_insert_eq|]. split; [exact Hmu|].
      split; [simpl; apply lookup_insert_eq|].
      intros i Hne. simpl. apply lookup_insert_ne. congruence.
Qed.

(** X11: on a registry whose listed databases are allocated, carry their
    ids and point back to it, [RedisDb(dbId)] returns a database whose
    [Id()] is [dbId] and whose [Redis()] and [Mu()] are the registry and its
    mutex; the database is ready for its methods, and the registry is left
    in the same good shape.  An empty registry is in that shape. *)
Theorem RedisDb_returns_database_of_that_id w r (dbId : DatabaseId) :
  registry_ok w r ->
  exists p w1 d o1,
    Redis.RedisDb r dbId w = Ret (Some p) w1 /\
    registry_ok w1 r /\ ready w1 p d o1 /\
    RedisDb.Id p w1 = Ret dbId w1 /\
    RedisDb.Redis p w1 = Ret r w1 /\
    RedisDb.Mu p w1 = Ret r w1.
Proof.
  intros Hok.
  destruct (RedisDb_step w r dbId Hok)
    as (p & w1 & o & o1 & _ & Hrun & Hok1 & Hr1 & Hmu1 & Hp & _).
  destruct Hok1 as (o1' & Hr1' & Hmu1' & Hreg1).
  assert (o1' = o1) by congruence. subst o1'.
  destruct (Hreg1 dbId p Hp) as (d & Hd & Hid & Hredis).
  exists p, w1, d, o1. split; [exact Hrun|].
  split; [exists o1; auto|]. split.
  - unfold ready. rewrite Hredis. auto.
  - rewrite (Id_run w1 p d Hd), (Redis_run w1 p d Hd), (Mu_run w1 p d Hd),
      Hid, Hredis. auto.
Qed.

Lemma registry_ok_world0 : registry_ok world0 1%positive.
Proof.
  exists empty_registry. split; [reflexivity|]. split; [reflexivity|].
  intros dbId p H. simpl in H. rewrite lookup_empty in H. discriminate H.
Defined.

Lemma RedisDb_returns_database_of_that_id_witness :
  exists p w1 d o1,
    Redis.RedisDb 1%positive 7%N world0 = Ret (Some p) w1 /\
    registry_ok w1 1%positive /\ ready w1 p d o1 /\
    RedisDb.Id p w1 = Ret 7%N w1 /\
    RedisDb.Redis p w1 = Ret 1%positive w1 /\
    RedisDb.Mu p w1 = Ret 1%positive w1.
Proof.
  apply (RedisDb_returns_database_of_that_id world0 1%positive 7%N
           registry_ok_world0).
Defined.

(** X12: on such a registry, [RedisDb] called for two different ids returns
    two different databases, and asking again for the first id still returns
    the first database. *)
Theorem RedisDb_distinct_ids_distinct_databases w r (dbId1 dbId2 : DatabaseId) :
  registry_ok w r -> dbId1 <> dbId2 ->
  exists p1 w1 p2 w2,
    Redis.RedisDb r dbId1 w = Ret (Some p1) w1 /\
    Redis.RedisDb r dbId2 w1 = Ret (Some p2) w2 /\
    p1 <> p2 /\
    Redis.RedisDb r dbId1 w2 = Ret (Some p1) w2.
Proof.
  intros Hok Hne.
  destruct (RedisDb_step w r dbId1 Hok)
    as (p1 & w1 & o & o1 & _ & Hrun1 & Hok1 & Hr1 & _ & Hp1 & _).
  destruct (RedisDb_step w1 r dbId2 Hok1)
    as (p2 & w2 & o1' & o2 & Hr1' & Hrun2 & Hok2 & Hr2 & Hmu2 & Hp2 & Hrest).
  assert (o1' = o1) by congruence. subst o1'.
  assert (Hp1' : redisDbs o2 !! dbId1 = Some p1)
    by (rewrite Hrest by assumption; exact Hp1).
  exists p1, w1, p2, w2. split; [exact Hrun1|]. split; [exact Hrun2|]. split.
  - destruct Hok2 as (o2' & Hr2' & _ & Hreg2).
    assert (o2' = o2) by congruence. subst o2'.
    destruct (Hreg2 dbId1 p1 Hp1') as (d1 & Hd1 & Hid1 & _).
    destruct (Hreg2 dbId2 p2 Hp2) as (d2 & Hd2 & Hid2 & _).
    intros ->. congruence.
  - apply (RedisDb_run_found w2 r o2 dbId1 p1 Hr2 Hmu2 Hp1').
Qed.

Lemma RedisDb_distinct_ids_distinct_databases_witness :
  exists p1 w1 p2 w2,
    Redis.RedisDb 1%positive 0%N world0 = Ret (Some p1) w1 /\
    Redis.RedisDb 1%positive 1%N w1 = Ret (Some p2) w2 /\
    p1 <> p2 /\
    Redis.RedisDb 1%positive 0%N w2 = Ret (Some p1) w2.
Proof.
  apply (RedisDb_distinct_ids_distinct_databases world0 1%positive 0%N 1%N
           registry_ok_world0).
  discriminate.
Defined.

(** X13: [RedisDbs()] returns the registry's map and leaves the store as it
    was; right after [RedisDb(dbId)] it lists [dbId] with the database that
    call returned, and every other id as it was listed before. *)
Theorem RedisDbs_lists_the_databases w r o (dbId : DatabaseId) :
  redises w !! r = Some o -> mu o = RWMutex.unlocked ->
  exists m p w1 m1,
    Redis.RedisDbs r w = Ret m w /\
    Redis.RedisDb r dbId w = Ret (Some p) w1 /\
    Redis.RedisDbs r w1 = Ret m1 w1 /\
    m1 !! dbId = Some p /\
    (forall i, i <> dbId -> m1 !! i = m !! i) /\
    (forall q, m !! dbId = Some q -> m1 = m).
Proof.
  intros Hr Hmu. exists (redisDbs o).
  rewrite (RedisDbs_run w r o Hr Hmu).
  destruct (redisDbs o !! dbId) as [q|] eqn:Hq.
  - exists q, w, (redisDbs o).
    rewrite (RedisDb_run_found w r o dbId q Hr Hmu Hq), (RedisDbs_run w r o Hr Hmu).
    repeat split; auto.
  - set (p := fresh (dom (dbs w))).
    exists p, (after_create r o dbId p w), (<[dbId := p]> (redisDbs o)).
    rewrite (RedisDb_run_created w r o dbId Hr Hmu Hq). fold p.
    split; [reflexivity|]. split; [reflexivity|]. split.
    + assert (Hr1 : redises (after_create r o dbId p w) !! r
                    = Some (set_redisDbs (<[dbId := p]> (redisDbs o)) o))
        by (simpl; apply lookup_insert_eq).
      exact (RedisDbs_run (after_create r o dbId p w) r _ Hr1 Hmu).
    + split; [apply lookup_insert_eq|]. split.
      * intros i Hne. apply lookup_insert_ne. congruence.
      * intros q Hq'. discriminate Hq'.
Qed.

Lemma RedisDbs_lists_the_databases_witness :
  exists p w1 m1,
    Redis.RedisDbs 1%positive world_reg = Ret {[0%N := 1%positive]} world_reg /\
    Redis.RedisDb 1%positive 5%N world_reg = Ret (Some p) w1 /\
    Redis.RedisDbs 1%positive w1 = Ret m1 w1 /\
    m1 !! 5%N = Some p /\ m1 !! 0%N = Some 1%positive.
Proof.
  destruct (RedisDbs_lists_the_databases world_reg 1%positive
              (mkRedis RWMutex.unlocked {[0%N := 1%positive]}) 5%N
              eq_refl eq_refl)
    as (m & p & w1 & m1 & H1 & H2 & H3 & H4 & H5 & _).
  exists p, w1, m1.
  assert (Hm : m = {[0%N := 1%positive]}).
  { vm_compute in H1. injection H1 as <-. reflexivity. }
  subst m. split; [exact H1|]. split; [exact H2|]. split; [exact H3|].
  split; [exact H4|]. rewrite H5 by discriminate. reflexivity.
Defined.

(** ** Calls while the mutex is held *)







(** ** More on the expiry-aware read *)

Lemma ItemExpired_false_iff (now : Time) (i : Item) :
  ItemExpired now i = false <-> Expires i = false \/ now <= Expiry i.
Proof.
  split.
  - intros H. destruct (Expires i) eqn:He; [|auto]. right.
    destruct (Z_lt_le_dec (Expiry i) now) as [Hlt|Hle]; [|exact Hle].
    assert (Hx : ItemExpired now i = true) by (apply ItemExpired_true_iff; auto).
    congruence.
  - intros H. destruct (ItemExpired now i) eqn:Hx; [|reflexivity].
    apply ItemExpired_true_iff in Hx. destruct Hx as [He Hlt].
    destruct H; [congruence|lia].
Qed.

(** X16: [GetOrExpired(k, b)] returns an item exactly when [Get(k)] returns
    that item and the item does not expire or its expiry is not before the
    clock reading (an expiry equal to the reading still counts as live); so
    it returns nil or what [Get] returns, and when it returns an item the
    store is as it was. *)
Theorem GetOrExpired_returns_live_items w db d r (now : Time) (k : string)
    (b : bool) :
  ready w db d r ->
  exists x w1,
    RedisDb.GetOrExpired now db k b w = Ret x w1 /\
    (forall i, x = Some i <->
       RedisDb.Get db k w = Ret (Some i) w /\
       (Expires i = false \/ now <= Expiry i)) /\
    (x = None \/ RedisDb.Get db k w = Ret x w) /\
    (x <> None -> w1 = w).
Proof.
  intros Hready.
  rewrite (GetOrExpired_run w db d r now k b Hready), (Get_run w db d r k Hready).
  destruct (keys d !! k) as [j|] eqn:Hk.
  - destruct (ItemExpired now j) eqn:Hx.
    + assert (Hnot : ~ (Expires j = false \/ now <= Expiry j)).
      { intros H. apply ItemExpired_false_iff in H. congruence. }
      destruct b; eexists _, _; (split; [reflexivity|]);
        (split; [|split; [auto|congruence]]);
        (intros i; split; [discriminate|]);
        intros [Hget Hlive]; injection Hget as <-; contradiction.
    + apply ItemExpired_false_iff in Hx.
      eexists _, _. split; [reflexivity|]. split; [|split; [auto|auto]].
      intros i. split.
      * intros Hi. injection Hi as <-. auto.
      * intros [Hget _]. injection Hget as <-. reflexivity.
  - eexists _, _. split; [reflexivity|]. split; [|split; [auto|congruence]].
    intros i. split; [discriminate|]. intros [Hget _]. discriminate Hget.
Qed.

Lemma GetOrExpired_returns_live_items_witness :
  (exists x w1,
     RedisDb.GetOrExpired 10 1%positive "b" true world_ab = Ret x w1 /\
     x = Some stale_item /\ w1 = world_ab) /\
  (exists x w1,
     RedisDb.GetOrExpired 11 1%positive "b" false world_ab = Ret x w1 /\
     x = None).
Proof.
  split.
  - destruct (GetOrExpired_returns_live_items world_ab 1%positive db_ab
                empty_registry 10 "b" true ready_world_ab)
      as (x & w1 & Hrun & Hiff & _ & Hsame).
    exists x, w1. split; [exact Hrun|].
    assert (Hx : x = Some stale_item).
    { apply Hiff. split; [reflexivity|]. right. simpl. lia. }
    split; [exact Hx|]. apply Hsame. rewrite Hx. discriminate.
  - destruct (GetOrExpired_returns_live_items world_ab 1%positive db_ab
                empty_registry 11 "b" false ready_world_ab)
      as (x & w1 & Hrun & Hiff & _ & _).
    exists x, w1. split; [exact Hrun|].
    destruct x as [i|]; [|reflexivity].
    destruct (proj1 (Hiff i) eq_refl) as [Hget Hlive].
    vm_compute in Hget. injection Hget as <-.
    destruct Hlive as [Hl|Hl]; [discriminate Hl|simpl in Hl; lia].
Defined.

(** X17: expiry only moves forward with the clock: if [GetOrExpired(k, _)]
    answers nil at one clock reading, it answers nil on the same store at
    every later reading; and if it returns an item at one reading, it
    returns that item, changing nothing, at every earlier reading. *)
Theorem GetOrExpired_monotone_in_time w db d r (now now' : Time) (k : string)
    (b b' : bool) :
  ready w db d r -> now <= now' ->
  (forall w1, RedisDb.GetOrExpired now db k b w = Ret None w1 ->
     exists w2, RedisDb.GetOrExpired now' db k b' w = Ret None w2) /\
  (forall i w1, RedisDb.GetOrExpired now' db k b w = Ret (Some i) w1 ->
     RedisDb.GetOrExpired now db k b' w = Ret (Some i) w).
Proof.
  intros Hready Hle.
  rewrite !(GetOrExpired_run w db d r _ k _ Hready).
  destruct (keys d !! k) as [j|] eqn:Hk.
  - split.
    + intros w1 Hnil.
      destruct (ItemExpired now j) eqn:Hx;
        [|destruct b; discriminate Hnil].
      apply ItemExpired_true_iff in Hx. destruct Hx as [He Hlt].
      assert (Hx' : ItemExpired now' j = true)
        by (apply ItemExpired_true_iff; split; [exact He|lia]).
      rewrite Hx'. destruct b'; eauto.
    + intros i w1 Hsome.
      destruct (ItemExpired now' j) eqn:Hx';
        [destruct b; discriminate Hsome|].
      injection Hsome as <- <-.
      apply ItemExpired_false_iff in Hx'.
      assert (Hx : ItemExpired now j = false).
      { apply ItemExpired_false_iff. destruct Hx'; [auto|right; lia]. }
      rewrite Hx. reflexivity.
  - split.
    + intros w1 _. eauto.
    + intros i w1 Hsome. discriminate Hsome.
Qed.

Lemma GetOrExpired_monotone_in_time_witness :
  (exists w2, RedisDb.GetOrExpired 500 1%positive "b" true world_ab = Ret None w2) /\
  RedisDb.GetOrExpired 3 1%positive "b" true world_ab
  = Ret (Some stale_item) world_ab.
Proof.
  split.
  - destruct (GetOrExpired_monotone_in_time world_ab 1%positive db_ab
                empty_registry 100 500 "b" false true ready_world_ab)
      as [H _]; [lia|].
    apply (H world_ab). reflexivity.
  - destruct (GetOrExpired_monotone_in_time world_ab 1%positive db_ab
                empty_registry 3 10 "b" false true ready_world_ab)
      as [_ H]; [lia|].
    apply (H stale_item world_ab). reflexivity.
Defined.
